(** * Fx.Transitions: easing curves and their derived variants

    A shallow embedding of [src/Effects/Fx.Transitions.js].

    Numbers.  The script computes on JavaScript numbers.  They are modelled
    as exact reals extended with the special values the script can produce
    or receive: [NaN] and the two infinities.  Rounding, overflow and the
    sign of zero are not modelled (a zero divisor counts as [+0]), so a
    statement about the value of a curve speaks about the curve as an exact
    mathematical function, which is the reading the specification gives
    ("up to floating-point tolerance"); statements that relate two runs of
    the same computation do not depend on it.  Where rounding decides a
    statement, the expression of the script is evaluated on binary64
    numbers as well, in [Double].

    Values.  A JavaScript value is [undefined], a number, or a reference to
    a function object in the heap.  Function objects carry the properties
    the script attaches to them ([easeIn], [easeOut], [easeInOut], [set]);
    the closures the script creates are kept as first-order [code] together
    with the values they capture. *)

From Stdlib Require Import PrimFloat.
From Stdlib Require Import Reals Lra Ascii.
From stdpp Require Import gmap strings list.

(** ** Numbers *)

Inductive number :=
  | NaN
  | Inf (negative : bool)
  | Fin (r : R).

#[global] Instance Rlt_decision (x y : R) : Decision (x < y)%R := Rlt_dec x y.
#[global] Instance Rle_decision (x y : R) : Decision (x <= y)%R := Rle_dec x y.
#[global] Instance Req_decision (x y : R) : Decision (x = y) := Req_dec_T x y.

Module Number.

Local Open Scope R_scope.

(** Sign bit of a finite number; zero counts as positive. *)
Definition negative (r : R) : bool := bool_decide (r < 0).

Definition is_integer (r : R) : bool := bool_decide (IZR (Int_part r) = r).

Definition neg (a : number) : number :=
  match a with
  | NaN => NaN
  | Inf s => Inf (negb s)
  | Fin x => Fin (- x)
  end.

Definition add (a b : number) : number :=
  match a, b with
  | NaN, _ | _, NaN => NaN
  | Inf s, Inf s' => if Bool.eqb s s' then Inf s else NaN
  | Inf s, Fin _ => Inf s
  | Fin _, Inf s => Inf s
  | Fin x, Fin y => Fin (x + y)
  end.

(** [a - b] on exact reals: the difference is not rounded, so a small
    operand is never absorbed by a large one. *)
Definition sub (a b : number) : number :=
  match a, b with
  | NaN, _ | _, NaN => NaN
  | Inf s, Inf s' => if Bool.eqb s s' then NaN else Inf s
  | Inf s, Fin _ => Inf s
  | Fin _, Inf s => Inf (negb s)
  | Fin x, Fin y => Fin (x - y)
  end.

Definition mul (a b : number) : number :=
  match a, b with
  | NaN, _ | _, NaN => NaN
  | Inf s, Inf s' => Inf (xorb s s')
  | Inf s, Fin y => if decide (y = 0) then NaN else Inf (xorb s (negative y))
  | Fin x, Inf s => if decide (x = 0) then NaN else Inf (xorb (negative x) s)
  | Fin x, Fin y => Fin (x * y)
  end.

Definition div (a b : number) : number :=
  match a, b with
  | NaN, _ | _, NaN => NaN
  | Inf _, Inf _ => NaN
  | Inf s, Fin y => Inf (xorb s (negative y))
  | Fin _, Inf _ => Fin 0
  | Fin x, Fin y =>
      if decide (y = 0)
      then (if decide (x = 0) then NaN else Inf (negative x))
      else Fin (x / y)
  end.

Definition lt (a b : number) : bool :=
  match a, b with
  | NaN, _ | _, NaN => false
  | Inf s, Inf s' => s && negb s'
  | Inf s, Fin _ => s
  | Fin _, Inf s => negb s
  | Fin x, Fin y => bool_decide (x < y)
  end.

Definition le (a b : number) : bool :=
  match a, b with
  | NaN, _ | _, NaN => false
  | Inf s, Inf s' => s || negb s'
  | Inf s, Fin _ => s
  | Fin _, Inf s => negb s
  | Fin x, Fin y => bool_decide (x <= y)
  end.

(** [Math.pow(base, exponent)], case by case as ECMAScript lists them.
    The power of two finite numbers is the exact real power: it neither
    overflows to an infinity nor underflows to zero. *)
Definition pow (base exponent : number) : number :=
  match exponent with
  | NaN => NaN
  | Fin y =>
      if decide (y = 0) then Fin 1 else
      match base with
      | NaN => NaN
      | Inf false => if decide (0 < y) then Inf false else Fin 0
      | Inf true =>
          if decide (0 < y)
          then Inf (is_integer y && Z.odd (Int_part y))
          else Fin 0
      | Fin x =>
          if decide (x = 0) then (if decide (0 < y) then Fin 0 else Inf false)
          else if decide (0 < x) then Fin (Rpower x y)
          else if is_integer y then Fin (powerRZ x (Int_part y))
          else NaN
      end
  | Inf s =>
      match base with
      | NaN => NaN
      | Inf _ => if s then Fin 0 else Inf false
      | Fin x =>
          if decide (Rabs x = 1) then NaN
          else if decide (1 < Rabs x) then (if s then Fin 0 else Inf false)
          else (if s then Inf false else Fin 0)
      end
  end.

Definition sin (a : number) : number :=
  match a with Fin x => Fin (Rtrigo_def.sin x) | _ => NaN end.

Definition cos (a : number) : number :=
  match a with Fin x => Fin (Rtrigo_def.cos x) | _ => NaN end.

Definition acos (a : number) : number :=
  match a with
  | Fin x => if decide (-1 <= x <= 1) then Fin (Ratan.acos x) else NaN
  | _ => NaN
  end.

End Number.

(** ** Values and the operators of the script *)

(** Heap locations. *)
Abbreviation loc := nat (only parsing).

Inductive value :=
  | Undefined
  | Num (n : number)
  | Obj (l : loc).

(** A numeric literal of the script. *)
Definition lit (r : R) : value := Num (Fin r).

(** The only objects of the model are function objects, which convert to
    [NaN]. *)
Definition ToNumber (v : value) : number :=
  match v with
  | Undefined => NaN
  | Num n => n
  | Obj _ => NaN
  end.

Definition ToBoolean (v : value) : bool :=
  match v with
  | Undefined => false
  | Num NaN => false
  | Num (Inf _) => true
  | Num (Fin r) => bool_decide (r ≠ 0%R)
  | Obj _ => true
  end.

(** [a || b] *)
Definition js_or (a b : value) : value := if ToBoolean a then a else b.

Definition js_neg (a : value) : value := Num (Number.neg (ToNumber a)).
(** [a + b].  On a function object JavaScript concatenates strings; the
    script only feeds such a sum to [*], where the string converts to [NaN],
    which is what adding the converted operands gives as well. *)
Definition js_add (a b : value) : value := Num (Number.add (ToNumber a) (ToNumber b)).
Definition js_sub (a b : value) : value := Num (Number.sub (ToNumber a) (ToNumber b)).
Definition js_mul (a b : value) : value := Num (Number.mul (ToNumber a) (ToNumber b)).
Definition js_div (a b : value) : value := Num (Number.div (ToNumber a) (ToNumber b)).
Definition js_lt (a b : value) : bool := Number.lt (ToNumber a) (ToNumber b).
Definition js_le (a b : value) : bool := Number.le (ToNumber a) (ToNumber b).

Definition Math_pow (a b : value) : value := Num (Number.pow (ToNumber a) (ToNumber b)).
Definition Math_sin (a : value) : value := Num (Number.sin (ToNumber a)).
Definition Math_cos (a : value) : value := Num (Number.cos (ToNumber a)).
Definition Math_acos (a : value) : value := Num (Number.acos (ToNumber a)).
Definition Math_PI : value := lit PI.

Declare Scope js_scope.
Delimit Scope js_scope with js.
Bind Scope js_scope with value.
Notation "a || b" := (js_or a b) : js_scope.
Notation "- a" := (js_neg a) : js_scope.
Notation "a + b" := (js_add a b) : js_scope.
Notation "a - b" := (js_sub a b) : js_scope.
Notation "a * b" := (js_mul a b) : js_scope.
Notation "a / b" := (js_div a b) : js_scope.
Notation "a <? b" := (js_lt a b) : js_scope.
Notation "a <=? b" := (js_le a b) : js_scope.
Notation "# r" := (lit r%R) (at level 5, r at level 1, format "# r") : js_scope.

(** ** The curves *)

Section Curves.
Local Open Scope js_scope.

(** [linear: function(t, c, d){ return c * (t / d); }] *)
Definition linear (t c d : value) : value := c * (t / d).

(** [Pow: function(p, x){ x = x || 6; return Math.pow(p, x); }] *)
Definition Pow (p x : value) : value :=
  let x := x || #6 in
  Math_pow p x.

(** [Expo: function(p){ return Math.pow(2, 8 * (p - 1)); }] *)
Definition Expo (p : value) : value := Math_pow #2 (#8 * (p - #1)).

(** [Circ: function(p){ return 1 - Math.sin(Math.acos(p)); }] *)
Definition Circ (p : value) : value := #1 - Math_sin (Math_acos p).

(** [Sine: function(p){ return 1 - Math.sin((1 - p) * Math.PI / 2); }] *)
Definition Sine (p : value) : value := #1 - Math_sin ((#1 - p) * Math_PI / #2).

(** [Back: function(p, x){ x = x || 1.6180;
      return Math.pow(p, 2) * ((x + 1) * p - x); }] *)
Definition Back (p x : value) : value :=
  let x := x || #1.6180 in
  Math_pow p #2 * ((x + #1) * p - x).

(** [Bounce]: every [p -= k] updates [p] before the following [* p]
    reads it. *)
Definition Bounce (p : value) : value :=
  let b := #7.5625 in
  let p := #1 - p in
  let y :=
    if p <? #1 / #2.75 then b * Math_pow p #2
    else if p <? #2 / #2.75 then
      let p := p - #1.5 / #2.75 in b * p * p + #0.75
    else if p <? #2.5 / #2.75 then
      let p := p - #2.25 / #2.75 in b * p * p + #0.9375
    else
      let p := p - #2.625 / #2.75 in b * p * p + #0.984375 in
  - y + #1.

(** [Elastic: function(p, x, y){ y = y || 300; x = y * 0.3 / (x || 1);
      return Math.pow(2, 10 * (p -= 1)) * Math.cos(2 * Math.PI * p * y / x); }] *)
Definition Elastic (p x y : value) : value :=
  let y := y || #300 in
  let x := y * #0.3 / (x || #1) in
  let p := p - #1 in
  Math_pow #2 (#10 * p) * Math_cos (#2 * Math_PI * p * y / x).

End Curves.

(** ** Function objects, the heap and the registry *)

(** One constructor per function expression of the script; a closure keeps
    the values it captures. *)
Inductive code :=
  | Clinear
  | CPow
  | CExpo
  | CCirc
  | CSine
  | CBack
  | CBounce
  | CElastic
  (** [function(p){ return Fx.Transitions.Pow(p, i + 2); }] *)
  | CPowAlias (i : nat)
  (** the three functions of [Fx.Shared.CreateTransitionEases] *)
  | CeaseIn (transition : value)
  | CeaseOut (transition : value)
  | CeaseInOut (transition : value)
  (** [function(){ var args = $A(arguments); return function(){...}; }];
      [$A] copies the arguments into an array of their own *)
  | Csetter (transition : value)
  (** [function(){ return transition.apply(Fx.Transitions,
        $A(arguments).concat(args)); }] *)
  | Cbound (transition : value) (args : list value).

Record object := Object {
  body : code;
  props : gmap string value;
}.

Record state := State {
  heap : list object;
  Fx_Transitions : gmap string value;
}.

Inductive outcome (A : Type) :=
  | Ok (a : A) (s : state)
  | TypeError
  | OutOfFuel.
Arguments Ok {A} a s.
Arguments TypeError {A}.
Arguments OutOfFuel {A}.

Definition M (A : Type) : Type := state → outcome A.

#[global] Instance M_ret : MRet M := λ A a s, Ok a s.
#[global] Instance M_bind : MBind M := λ A B f m s,
  match m s with
  | Ok a s' => f a s'
  | TypeError => TypeError
  | OutOfFuel => OutOfFuel
  end.

(** Evaluating a function expression allocates a fresh function object:
    the state with one more object, and the reference to it. *)
Definition after_alloc (c : code) (s : state) : state :=
  State (heap s ++ [Object c ∅]) (Fx_Transitions s).

Definition alloc (c : code) : M value := λ s,
  Ok (Obj (length (heap s))) (after_alloc c s).

(** [o[k]]: reading from [undefined] throws, a number has none of the
    properties used here.  An object has the properties the script assigns
    to it; what a function inherits from its prototype ([call], [apply],
    ...) is not modelled, so [k] stands for a name the script assigns. *)
Definition get_prop (o : value) (k : string) : M value := λ s,
  match o with
  | Undefined => TypeError
  | Num _ => Ok Undefined s
  | Obj l =>
      match heap s !! l with
      | Some ob => Ok (default Undefined (props ob !! k)) s
      | None => TypeError
      end
  end.

(** [o[k] = v]: writing to [undefined] throws, writing to a number is
    dropped. *)
Definition set_prop (o : value) (k : string) (v : value) : M () := λ s,
  match o with
  | Undefined => TypeError
  | Num _ => Ok () s
  | Obj l =>
      match heap s !! l with
      | Some ob =>
          Ok () (State (<[l := Object (body ob) (<[k := v]> (props ob))]> (heap s))
                       (Fx_Transitions s))
      | None => TypeError
      end
  end.

(** [Fx.Transitions[k]] and [Fx.Transitions[k] = v].  The registry holds
    the curves and their aliases; [extend] itself, which the script keeps
    on the same object, and the inherited names are not entries of it. *)
Definition registry_get (k : string) : M value := λ s,
  Ok (default Undefined (Fx_Transitions s !! k)) s.

Definition registry_set (k : string) (v : value) : M () := λ s,
  Ok () (State (heap s) (<[k := v]> (Fx_Transitions s))).

(** The [n]-th actual argument; a missing one is [undefined]. *)
Definition arg (n : nat) (args : list value) : value := default Undefined (args !! n).

(** The function object behind a callee. *)
Definition get_function (f : value) : M object := λ s,
  match f with
  | Obj l =>
      match heap s !! l with
      | Some ob => Ok ob s
      | None => TypeError
      end
  | _ => TypeError
  end.

(** The two halves of [easeInOut], for a captured [transition] that is
    called through [transition_call]. *)
Definition easeInOut_first_half (transition_call : list value → M value)
    (p x y z : value) : M value :=
  r ← transition_call [(#2 * p)%js; x; y; z];
  mret (r / #2)%js.

Definition easeInOut_second_half (transition_call : list value → M value)
    (p x y z : value) : M value :=
  r ← transition_call [(#2 * (#1 - p))%js; x; y; z];
  mret ((#2 - r) / #2)%js.

(** The body of each function expression; [call] is how the body calls
    another function object. *)
Definition apply_code (call : value → list value → M value)
    (c : code) (args : list value) : M value :=
  let p := arg 0 args in
  let x := arg 1 args in
  let y := arg 2 args in
  let z := arg 3 args in
  match c with
  | Clinear => mret (linear (arg 0 args) (arg 1 args) (arg 2 args))
  | CPow => mret (Pow p x)
  | CExpo => mret (Expo p)
  | CCirc => mret (Circ p)
  | CSine => mret (Sine p)
  | CBack => mret (Back p x)
  | CBounce => mret (Bounce p)
  | CElastic => mret (Elastic p x y)
  | CPowAlias i =>
      pow ← registry_get "Pow";
      call pow [p; (#(INR i) + #2)%js]
  | CeaseIn transition =>
      call transition [p; x; y; z]
  | CeaseOut transition =>
      r ← call transition [(#1 - p)%js; x; y; z];
      mret (#1 - r)%js
  | CeaseInOut transition =>
      if (p <=? #0.5)%js
      then easeInOut_first_half (call transition) p x y z
      else easeInOut_second_half (call transition) p x y z
  | Csetter transition => alloc (Cbound transition args)
  | Cbound transition bound => call transition (args ++ bound)
  end.

(** Calling a function object.  [Fx.Transitions.Pow] is looked up when an
    alias runs, and a closure calls whatever it captured, so the recursion
    follows the heap and is bounded by [fuel]. *)
Fixpoint call (fuel : nat) (f : value) (args : list value) : M value :=
  match fuel with
  | O => λ _, OutOfFuel
  | S fuel =>
      ob ← get_function f;
      apply_code (call fuel) (body ob) args
  end.

(** ** The registration functions *)

(** Modelled from the spec: [$extend] belongs to the MooTools core and is
    not part of this file.  The derivation engine "produces three variants"
    on the curve it is given: [$extend(o, {k1: v1, ...})] copies the listed
    properties onto [o], in the order of the literal. *)
Fixpoint js_extend (o : value) (properties : list (string * value)) : M () :=
  match properties with
  | [] => mret ()
  | (k, v) :: rest => set_prop o k v;; js_extend o rest
  end.

(** Modelled from the spec: [Array.each] belongs to the MooTools core and is
    not part of this file.  The engine "attaches a ParameterBinder to each"
    variant and the power-family aliases are registered one after the
    other: [array.each(fn)] calls [fn] on every element, first to last. *)
Fixpoint each {A} (fn : A → M ()) (array : list A) : M () :=
  match array with
  | [] => mret ()
  | a :: rest => fn a;; each fn rest
  end.

(** Modelled from the spec: the same [Array.each], for a callback that
    also takes the index: [array.each(function(item, i){...})], counting
    from [i]; the aliases are "Pow with a fixed exponent" 2, 3, 4, 5, that
    is [i + 2] for the indices 0 to 3. *)
Fixpoint each_index {A} (fn : A → nat → M ()) (i : nat) (array : list A) : M () :=
  match array with
  | [] => mret ()
  | a :: rest => fn a i;; each_index fn (S i) rest
  end.

Definition is_upper (c : ascii) : bool :=
  (Nat.leb 65 (nat_of_ascii c)) && (Nat.leb (nat_of_ascii c) 90).

(** Modelled from the spec: [String.test] belongs to the MooTools core and
    is not part of this file.  Family or bare registration is "inferred
    from name capitalization": [type.test(/^[A-Z]/)] holds when the name
    starts with a letter from A to Z. *)
Definition test_upper_initial (type : string) : bool :=
  match type with
  | String c _ => is_upper c
  | EmptyString => false
  end.

Definition lower (c : ascii) : ascii :=
  if is_upper c then ascii_of_nat (nat_of_ascii c + 32) else c.

(** [type.toLowerCase()], on ASCII names *)
Fixpoint toLowerCase (type : string) : string :=
  match type with
  | EmptyString => EmptyString
  | String c rest => String (lower c) (toLowerCase rest)
  end.

(** [Fx.Shared.SetTransitionValues] *)
Definition SetTransitionValues (transition : value) : M value :=
  alloc (Csetter transition).

(** [Fx.Shared.CreateTransitionEases] *)
Definition CreateTransitionEases (transition : value) (type : string) : M () :=
  easeIn ← alloc (CeaseIn transition);
  easeOut ← alloc (CeaseOut transition);
  easeInOut ← alloc (CeaseInOut transition);
  js_extend transition
    [("easeIn", easeIn); ("easeOut", easeOut); ("easeInOut", easeInOut)];;
  each (λ mode,
      target ← get_prop transition ("ease" +:+ mode);
      variant ← get_prop transition ("ease" +:+ mode);
      setter ← SetTransitionValues variant;
      set_prop target "set" setter;;
      variant ← get_prop transition ("ease" +:+ mode);
      registry_set (toLowerCase type +:+ mode) variant)
    ["In"; "Out"; "InOut"].

(** [Fx.Transitions.extend]; [transitions] lists the properties of the
    argument in the order [for ... in] visits them. *)
Definition extend (transitions : list (string * value)) : M () :=
  each (λ '(type, transition),
      (if test_upper_initial type
       then CreateTransitionEases transition type
       else setter ← SetTransitionValues transition;
            set_prop transition "set" setter);;
      registry_set type transition)
    transitions.

(** The script from top to bottom.  [new Abstract({linear: ...})] (the
    MooTools core, not part of this file) gives the registry object with
    [linear] as its only curve: a bare curve, "registered without
    derivation"; [Fx.Transitions.extend] itself is the function [extend]
    above and is not kept as an entry. *)
Definition script : M () :=
  f_linear ← alloc Clinear;
  registry_set "linear" f_linear;;
  f_Pow ← alloc CPow;
  f_Expo ← alloc CExpo;
  f_Circ ← alloc CCirc;
  f_Sine ← alloc CSine;
  f_Back ← alloc CBack;
  f_Bounce ← alloc CBounce;
  f_Elastic ← alloc CElastic;
  extend [("Pow", f_Pow); ("Expo", f_Expo); ("Circ", f_Circ); ("Sine", f_Sine);
          ("Back", f_Back); ("Bounce", f_Bounce); ("Elastic", f_Elastic)];;
  each_index (λ transition i,
      f ← alloc (CPowAlias i);
      extend [(transition, f)])
    0 ["Quad"; "Cubic"; "Quart"; "Quint"].

Definition empty_state : state := State [] ∅.

(** The state once the script has run. *)
Definition loaded : state :=
  match script empty_state with
  | Ok _ s => s
  | _ => empty_state
  end.

(** The families that go through [CreateTransitionEases]. *)
Definition families : list string :=
  ["Pow"; "Expo"; "Circ"; "Sine"; "Back"; "Bounce"; "Elastic";
   "Quad"; "Cubic"; "Quart"; "Quint"].

(** ** Using the registry *)

(** [Fx.Transitions[name](args)] *)
Definition invoke_raw (fuel : nat) (name : string) (args : list value) : M value :=
  f ← registry_get name;
  call fuel f args.

(** [Fx.Transitions[name][mode](args)] *)
Definition invoke (fuel : nat) (name mode : string) (args : list value) : M value :=
  family ← registry_get name;
  f ← get_prop family mode;
  call fuel f args.

(** A number that is neither [NaN] nor infinite. *)
Definition finite (v : value) : bool :=
  match v with
  | Num (Fin _) => true
  | _ => false
  end.

(** [f] runs in [s] as the pure function [d] of its arguments once it has
    [k] units of fuel, and leaves the state as it is. *)
Definition pure_fn (s : state) (f : value) (k : nat) (d : list value → value) : Prop :=
  ∀ n args, call (k + n) f args s = Ok (d args) s.

(** The code of the function object [f] in [s]. *)
Definition body_of (s : state) (f : value) : option code :=
  match f with
  | Obj l => body <$> heap s !! l
  | _ => None
  end.

(** The property [k] of the function object [f] in [s]. *)
Definition prop_of (s : state) (f : value) (k : string) : option value :=
  match f with
  | Obj l => ob ← heap s !! l; props ob !! k
  | _ => None
  end.

(** ** Double precision *)

(** The script runs on binary64 numbers.  [Back] and the variants that
    [Fx.Shared.CreateTransitionEases] derives from a curve are given here
    on these numbers, operation by operation as the script writes them, for
    the statements that rounding decides.  A parameter that is not passed
    is [None]. *)
Module Double.

Local Open Scope float_scope.

(** [x || d] for a number or [undefined]: [0], [-0] and [NaN] are falsy. *)
Definition or_default (x : option float) (d : float) : float :=
  match x with
  | Some v => if is_nan v || is_zero v then d else v
  | None => d
  end.

(** [Math.pow(p, 2)] rounded to the nearest double, which is what the
    product [p * p] is.  At [p = 1] the square is exact. *)
Definition Math_pow_2 (p : float) : float := p * p.

(** [Back: function(p, x){ x = x || 1.6180;
      return Math.pow(p, 2) * ((x + 1) * p - x); }]; the literal [1.6180]
    is the double nearest to it. *)
#[warnings="-inexact-float"] Definition Back (p : float) (x : option float) : float :=
  let x := or_default x 1.6180 in
  Math_pow_2 p * ((x + 1) * p - x).

(** [easeIn: function(p, x, y, z){ return transition(p, x, y, z); }] *)
Definition easeIn (transition : float → option float → float)
    (p : float) (x : option float) : float :=
  transition p x.

(** [transition(2 * p, x, y, z) / 2] *)
Definition easeInOut_first_half (transition : float → option float → float)
    (p : float) (x : option float) : float :=
  transition (2 * p) x / 2.

(** [(2 - transition(2 * (1 - p), x, y, z)) / 2] *)
Definition easeInOut_second_half (transition : float → option float → float)
    (p : float) (x : option float) : float :=
  (2 - transition (2 * (1 - p)) x) / 2.

(** [easeInOut: function(p, x, y, z){ return (p <= 0.5) ? ... : ...; }] *)
Definition easeInOut (transition : float → option float → float)
    (p : float) (x : option float) : float :=
  if p <=? 0.5 then easeInOut_first_half transition p x
  else easeInOut_second_half transition p x.

End Double.

(** ** The properties under study *)

(** Both ends of [easeIn] with default parameters: [easeIn(0) == 0] and
    [easeIn(1) == 1]. *)
Definition endpoint_law (N : string) : Prop :=
  ∀ n,
    invoke (3 + n) N "easeIn" [(#0)%js] loaded = Ok (#0)%js loaded ∧
    invoke (3 + n) N "easeIn" [(#1)%js] loaded = Ok (#1)%js loaded.

(** A call that ends in a fault, or in a value that is not a finite
    number. *)
Definition numeric_failure (o : outcome value) : Prop :=
  match o with
  | Ok v _ => finite v = false
  | _ => True
  end.

(** ** States reached by the registration functions *)

(** The state after [o[k] = v] on the function object at [l]. *)
Definition after_set_prop (l : loc) (k : string) (v : value) (s : state) : state :=
  State (alter (λ ob, Object (body ob) (<[k := v]> (props ob))) l (heap s))
        (Fx_Transitions s).

(** The state after [Fx.Transitions[k] = v]. *)
Definition after_registry_set (k : string) (v : value) (s : state) : state :=
  State (heap s) (<[k := v]> (Fx_Transitions s)).

(** [s'] keeps what [s] has: every function object of [s] is in [s'] with
    the same code, and every registry entry of [s] is in [s'] with the same
    value.  Properties of the objects may differ, and [s'] may hold more
    objects and more entries. *)
Definition extends (s s' : state) : Prop :=
  (∀ l ob, heap s !! l = Some ob →
           ∃ ob', heap s' !! l = Some ob' ∧ body ob' = body ob)
  ∧ (∀ k v, Fx_Transitions s !! k = Some v → Fx_Transitions s' !! k = Some v).

(** In [s] the variant of [transition] for [mode] is in place: [variant]
    is the closure [mk transition], it is the [ease...] property of
    [transition] and the registry entry [lowercase(type) + mode], and its
    [set] property is [setter], the setter made for it. *)
Definition variant_installed (s : state) (transition : value) (type mode : string)
    (mk : value → code) (variant setter : value) : Prop :=
  body_of s variant = Some (mk transition)
  ∧ prop_of s transition ("ease" +:+ mode) = Some variant
  ∧ Fx_Transitions s !! (toLowerCase type +:+ mode) = Some variant
  ∧ prop_of s variant "set" = Some setter
  ∧ body_of s setter = Some (Csetter variant).

(** [Fx.Transitions[name][mode].set(fixed)] *)
Definition invoke_set (fuel : nat) (name mode : string) (fixed : list value) : M value :=
  family ← registry_get name;
  variant ← get_prop family mode;
  setter ← get_prop variant "set";
  call fuel setter fixed.


(** * Properties *)

(** ** Running function objects *)

Section Running.
Variable s : state.

Lemma get_function_body (f : value) (c : code) :
  body_of s f = Some c →
  ∃ ob, get_function f s = Ok ob s ∧ body ob = c.
Proof.
  unfold body_of, get_function. destruct f as [| |l]; try discriminate.
  destruct (heap s !! l) as [ob|]; simpl; intros [= <-].
  now exists ob.
Qed.

Lemma call_body (n : nat) (f : value) (c : code) (args : list value) :
  body_of s f = Some c →
  call (S n) f args s = apply_code (call n) c args s.
Proof.
  intros (ob & E & <-)%get_function_body.
  simpl. unfold mbind, M_bind. now rewrite E.
Qed.

Lemma pure_fn_mono (f : value) (k m : nat) (d : list value → value) :
  pure_fn s f k d → pure_fn s f (k + m) d.
Proof. intros H n args. rewrite <- Nat.add_assoc. apply H. Qed.

Lemma pure_base (f : value) (c : code) (d : list value → value) :
  body_of s f = Some c →
  (∀ callee args, apply_code callee c args = mret (d args)) →
  pure_fn s f 1 d.
Proof.
  intros Hb Hc n args. cbn [Nat.add]. rewrite (call_body _ _ c) by done.
  now rewrite Hc.
Qed.

Lemma pure_alias (f g : value) (i k : nat) (d : list value → value) :
  body_of s f = Some (CPowAlias i) →
  Fx_Transitions s !! "Pow" = Some g →
  pure_fn s g k d →
  pure_fn s f (S k) (λ a, d [arg 0 a; (#(INR i) + #2)%js]).
Proof.
  intros Hb Hg Hd n args. cbn [Nat.add]. rewrite (call_body _ _ _ _ Hb). simpl.
  unfold mbind, M_bind, registry_get. rewrite Hg. simpl. apply Hd.
Qed.

Lemma pure_easeIn (f t : value) (k : nat) (d : list value → value) :
  body_of s f = Some (CeaseIn t) →
  pure_fn s t k d →
  pure_fn s f (S k) (λ a, d [arg 0 a; arg 1 a; arg 2 a; arg 3 a]).
Proof.
  intros Hb Hd n args. cbn [Nat.add]. rewrite (call_body _ _ _ _ Hb). simpl. apply Hd.
Qed.

Lemma pure_easeOut (f t : value) (k : nat) (d : list value → value) :
  body_of s f = Some (CeaseOut t) →
  pure_fn s t k d →
  pure_fn s f (S k)
    (λ a, (#1 - d [(#1 - arg 0 a)%js; arg 1 a; arg 2 a; arg 3 a])%js).
Proof.
  intros Hb Hd n args. cbn [Nat.add]. rewrite (call_body _ _ _ _ Hb). simpl.
  unfold mbind, M_bind. now rewrite Hd.
Qed.

Lemma pure_easeInOut (f t : value) (k : nat) (d : list value → value) :
  body_of s f = Some (CeaseInOut t) →
  pure_fn s t k d →
  pure_fn s f (S k)
    (λ a, if (arg 0 a <=? #0.5)%js
          then (d [(#2 * arg 0 a)%js; arg 1 a; arg 2 a; arg 3 a] / #2)%js
          else ((#2 - d [(#2 * (#1 - arg 0 a))%js; arg 1 a; arg 2 a; arg 3 a]) / #2)%js).
Proof.
  intros Hb Hd n args. cbn [Nat.add]. rewrite (call_body _ _ _ _ Hb). simpl.
  unfold easeInOut_first_half, easeInOut_second_half, mbind, M_bind.
  destruct (arg 0 args <=? #0.5)%js; now rewrite Hd.
Qed.

Lemma invoke_raw_pure (N : string) (f : value) (k : nat) (d : list value → value) :
  Fx_Transitions s !! N = Some f →
  pure_fn s f k d →
  ∀ n args r, d args = r → invoke_raw (k + n) N args s = Ok r s.
Proof.
  intros Hf Hd n args r <-. unfold invoke_raw, mbind, M_bind, registry_get.
  rewrite Hf. simpl. apply Hd.
Qed.

Lemma invoke_pure (N mode : string) (f v : value) (k : nat)
    (d : list value → value) :
  Fx_Transitions s !! N = Some f →
  prop_of s f mode = Some v →
  pure_fn s v k d →
  ∀ n args r, d args = r → invoke (k + n) N mode args s = Ok r s.
Proof.
  intros Hf Hv Hd n args r <-.
  unfold invoke, mbind, M_bind, registry_get, get_prop.
  rewrite Hf. simpl. destruct f as [| |l]; try discriminate.
  simpl in Hv. destruct (heap s !! l) as [ob|]; try discriminate.
  simpl in Hv. rewrite Hv. simpl. apply Hd.
Qed.

End Running.

(** ** Running the loaded registry *)

Ltac by_computation := vm_compute; reflexivity.

(** The script runs to its end without a fault; [loaded] is the state it
    leaves. *)
Lemma script_runs : script empty_state = Ok () loaded.
Proof. by_computation. Qed.

(** It leaves 78 function objects: [linear], the eleven raw curves, and for
    each of these three variants with a setter each. *)
Lemma loaded_heap_size : length (heap loaded) = 78.
Proof. by_computation. Qed.

(** Solves [pure_fn loaded f k ?d] for a function object [f] of the loaded
    registry, following the code of [f]. *)
Ltac pure_loaded :=
  lazymatch goal with
  | |- pure_fn loaded ?f ?k _ =>
    let c := eval vm_compute in (body_of loaded f) in
    lazymatch c with
    | Some (CPowAlias ?i) =>
        let g := eval vm_compute in (default Undefined (Fx_Transitions loaded !! "Pow")) in
        eapply (pure_alias loaded f g i);
        [by_computation | by_computation | pure_loaded]
    | Some (CeaseIn ?t) =>
        eapply (pure_easeIn loaded f t); [by_computation | pure_loaded]
    | Some (CeaseOut ?t) =>
        eapply (pure_easeOut loaded f t); [by_computation | pure_loaded]
    | Some (CeaseInOut ?t) =>
        eapply (pure_easeInOut loaded f t); [by_computation | pure_loaded]
    | Some ?c =>
        lazymatch k with
        | 1 => idtac
        | S ?j => eapply (pure_fn_mono loaded f 1 j)
        end;
        eapply (pure_base loaded f c); [by_computation | reflexivity]
    end
  end.

Ltac run_loaded :=
  lazymatch goal with
  | |- invoke (?k + ?n) ?N ?mode ?args loaded = _ =>
      let f := eval vm_compute in (default Undefined (Fx_Transitions loaded !! N)) in
      let v := eval vm_compute in (default Undefined (prop_of loaded f mode)) in
      eapply (invoke_pure loaded N mode f v k);
      [by_computation | by_computation | pure_loaded | cbv beta]
  | |- invoke_raw (?k + ?n) ?N ?args loaded = _ =>
      let f := eval vm_compute in (default Undefined (Fx_Transitions loaded !! N)) in
      eapply (invoke_raw_pure loaded N f k);
      [by_computation | pure_loaded | cbv beta]
  end.

(** ** Arithmetic of the curves *)

Ltac args := cbv [arg default from_option Datatypes.id lookup list_lookup].

Ltac js_unfold :=
  cbv [linear Pow Expo Circ Sine Back Bounce Elastic
       js_or js_neg js_add js_sub js_mul js_div js_lt js_le
       Math_pow Math_sin Math_cos Math_acos Math_PI lit ToNumber ToBoolean
       Number.neg Number.add Number.sub Number.mul Number.div
       Number.lt Number.le Number.sin Number.cos Number.acos Number.pow
       INR].

(** Settles the comparisons between concrete reals that guard the
    branches. *)
Ltac decide_R :=
  repeat match goal with
  | |- context [decide ?P] =>
      first [ rewrite (decide_True (P := P)) by lra
            | rewrite (decide_False (P := P)) by lra ]
  | |- context [bool_decide ?P] =>
      first [ rewrite (bool_decide_eq_true_2 P) by lra
            | rewrite (bool_decide_eq_false_2 P) by lra ]
  end.

Ltac js_eval := args; js_unfold; decide_R.

Local Open Scope R_scope.

Lemma Rpower_base_1 (y : R) : Rpower 1 y = 1.
Proof. unfold Rpower. rewrite ln_1, Rmult_0_r. apply exp_0. Qed.

Lemma Rpower_2_neg (k : nat) (y : R) : y = - INR k → Rpower 2 y = / 2 ^ k.
Proof. intros ->. rewrite Rpower_Ropp, Rpower_pow by lra. reflexivity. Qed.

(** The phase of [Elastic] at [p = 0] with the default period:
    [2π·(-1)·300/90 = -(2π/3 + 6π)]. *)
Lemma cos_Elastic_0 : cos (2 * PI * (0 - 1) * 300 / (300 * 0.3 / 1)) = - (1 / 2).
Proof.
  replace (2 * PI * (0 - 1) * 300 / (300 * 0.3 / 1))
    with (- (2 * (PI / 3) + 2 * INR 3 * PI)) by (cbn [INR]; lra).
  rewrite cos_neg, cos_period, cos_2PI3. lra.
Qed.

Local Close Scope R_scope.

Ltac num_eq := repeat f_equal; try lra.


(** ** Endpoints *)

Ltac each_family :=
  repeat first [apply Forall_nil_2 | apply Forall_cons_2].


Lemma Expo_easeIn_0 (n : nat) :
  invoke (3 + n) "Expo" "easeIn" [(#0)%js] loaded = Ok (#(1 / 256))%js loaded.
Proof.
  run_loaded. js_eval. rewrite (Rpower_2_neg 8) by (cbn [INR]; lra). num_eq.
Qed.

Lemma Elastic_easeIn_0 (n : nat) :
  invoke (3 + n) "Elastic" "easeIn" [(#0)%js] loaded
  = Ok (#(- (1 / 2048)))%js loaded.
Proof.
  run_loaded. js_eval. rewrite (Rpower_2_neg 10) by (cbn [INR]; lra).
  rewrite cos_Elastic_0. num_eq.
Qed.

(** [raw(1) == 1] for each of the eleven families, seen through [easeIn]. *)
Lemma easeIn_1 :
  Forall (λ N, ∀ n, invoke (3 + n) N "easeIn" [(#1)%js] loaded = Ok (#1)%js loaded)
    families.
Proof.
  each_family; intros n; run_loaded; js_eval;
    rewrite ?Rpower_base_1, ?acos_1, ?sin_0; try num_eq.
  - (* Sine *)
    replace ((1 - 1) * PI / 2)%R with 0%R by lra. rewrite sin_0. num_eq.
  - (* Elastic *)
    replace (2 * PI * (1 - 1) * 300 / (300 * 0.3 / 1))%R with 0%R by lra.
    rewrite cos_0. num_eq.
Qed.

Lemma easeIn_0 :
  Forall (λ N, ∀ n, invoke (3 + n) N "easeIn" [(#0)%js] loaded = Ok (#0)%js loaded)
    ["Pow"; "Circ"; "Sine"; "Back"; "Bounce"; "Quad"; "Cubic"; "Quart"; "Quint"].
Proof.
  each_family; intros n; run_loaded; js_eval;
    rewrite ?acos_0, ?sin_PI2; try num_eq.
  (* Sine *)
  replace ((1 - 0) * PI / 2)%R with (PI / 2)%R by lra. rewrite sin_PI2. num_eq.
Qed.

Lemma families_elem (N : string) :
  bool_decide (N ∈ families) = true → N ∈ families.
Proof. apply bool_decide_eq_true_1. Qed.

Ltac in_families := apply families_elem; by_computation.

(** C1, as stated, fails: [Expo.easeIn(0)] is [2^-8 = 1/256], not [0], so
    the endpoint law does not hold for all eleven families. *)
Lemma endpoint_law_fails :
  invoke 3 "Expo" "easeIn" [(#0)%js] loaded = Ok (#(1 / 256))%js loaded
  ∧ ¬ Forall endpoint_law families.
Proof.
  split; [apply (Expo_easeIn_0 0)|].
  rewrite Forall_forall. intros H.
  assert (Hin : "Expo" ∈ families) by in_families.
  destruct (H _ Hin 0%nat) as [H0 _].
  pose proof (Expo_easeIn_0 0) as E.
  assert (Hv : Fin (1 / 256) = Fin 0) by (unfold lit in *; congruence).
  injection Hv as Hv. lra.
Qed.

(** C1, amended: with default parameters [easeIn(0) == 0] and
    [easeIn(1) == 1] hold for Pow, Circ, Sine, Back, Bounce, Quad, Cubic,
    Quart and Quint; Expo and Elastic satisfy [easeIn(1) == 1], while their
    [easeIn(0)] is [1/256] and [-1/2048]. *)
Theorem endpoint_law_amended :
  Forall endpoint_law
    ["Pow"; "Circ"; "Sine"; "Back"; "Bounce"; "Quad"; "Cubic"; "Quart"; "Quint"]
  ∧ (∀ n, invoke (3 + n) "Expo" "easeIn" [(#1)%js] loaded = Ok (#1)%js loaded
          ∧ invoke (3 + n) "Expo" "easeIn" [(#0)%js] loaded
            = Ok (#(1 / 256))%js loaded)
  ∧ (∀ n, invoke (3 + n) "Elastic" "easeIn" [(#1)%js] loaded = Ok (#1)%js loaded
          ∧ invoke (3 + n) "Elastic" "easeIn" [(#0)%js] loaded
            = Ok (#(- (1 / 2048)))%js loaded).
Proof.
  pose proof easeIn_1 as H1. rewrite Forall_forall in H1.
  split; [|split].
  - apply Forall_forall. intros N HN n. split.
    + pose proof easeIn_0 as H0. rewrite Forall_forall in H0. now apply H0.
    + apply H1.
      repeat (apply elem_of_cons in HN as [->|HN]; [in_families|]).
      inversion HN.
  - intros n. split; [|apply Expo_easeIn_0]. apply H1. in_families.
  - intros n. split; [|apply Elastic_easeIn_0]. apply H1. in_families.
Qed.

(** ** Falsy parameters *)

Lemma js_or_falsy (a b : value) : ToBoolean a = false → (a || b)%js = b.
Proof. unfold js_or. now intros ->. Qed.

Lemma js_or_truthy (a b : value) : ToBoolean a = true → (a || b)%js = a.
Proof. unfold js_or. now intros ->. Qed.

Lemma falsy_zero : ToBoolean (#0)%js = false.
Proof. unfold lit, ToBoolean. now decide_R. Qed.

Lemma truthy_lit (r : R) : r ≠ 0%R → ToBoolean (lit r) = true.
Proof. intros H. unfold lit, ToBoolean. now apply bool_decide_eq_true_2. Qed.

Lemma Pow_falsy (p x : value) :
  ToBoolean x = false → Pow p x = Math_pow p (#6)%js.
Proof. intros H. unfold Pow. now rewrite js_or_falsy. Qed.

Lemma Pow_lit (p : value) (x : R) :
  x ≠ 0%R → Pow p (lit x) = Math_pow p (lit x).
Proof. intros H. unfold Pow. now rewrite js_or_truthy by now apply truthy_lit. Qed.

Lemma Back_falsy (p x : value) :
  ToBoolean x = false → Back p x = Back p (#1.6180)%js.
Proof.
  intros H. unfold Back. rewrite js_or_falsy by done.
  rewrite js_or_truthy; [done|]. apply truthy_lit. lra.
Qed.

Lemma Elastic_falsy (p x y : value) :
  ToBoolean x = false → Elastic p x y = Elastic p (#1)%js y.
Proof.
  intros H. unfold Elastic. rewrite (js_or_falsy x) by done.
  rewrite (js_or_truthy (#1)%js); [done|]. apply truthy_lit. lra.
Qed.

(** The raw curves that take parameters, as registered. *)
Lemma raw_Pow (n : nat) (args : list value) :
  invoke_raw (2 + n) "Pow" args loaded = Ok (Pow (arg 0 args) (arg 1 args)) loaded.
Proof. run_loaded. reflexivity. Qed.

Lemma raw_Back (n : nat) (args : list value) :
  invoke_raw (2 + n) "Back" args loaded = Ok (Back (arg 0 args) (arg 1 args)) loaded.
Proof. run_loaded. reflexivity. Qed.

Lemma raw_Elastic (n : nat) (args : list value) :
  invoke_raw (2 + n) "Elastic" args loaded
  = Ok (Elastic (arg 0 args) (arg 1 args) (arg 2 args)) loaded.
Proof. run_loaded. reflexivity. Qed.

(** C9: a parameter of [0] is replaced by the default, exactly as a missing
    one: [Pow(p, 0) == Pow(p, 6) == Pow(p)], [Back(p, 0) == Back(p, 1.6180)
    == Back(p)] and [Elastic(p, 0, y) == Elastic(p, 1, y) ==
    Elastic(p, undefined, y)], for every [p] and [y]. *)
Theorem zero_parameter_is_default (n : nat) (p y : value) :
  (invoke_raw (2 + n) "Pow" [p; (#0)%js] loaded = Ok (Math_pow p (#6)%js) loaded
   ∧ invoke_raw (2 + n) "Pow" [p; (#6)%js] loaded = Ok (Math_pow p (#6)%js) loaded
   ∧ invoke_raw (2 + n) "Pow" [p] loaded = Ok (Math_pow p (#6)%js) loaded)
  ∧ (invoke_raw (2 + n) "Back" [p; (#0)%js] loaded
       = Ok (Back p (#1.6180)%js) loaded
     ∧ invoke_raw (2 + n) "Back" [p; (#1.6180)%js] loaded
       = Ok (Back p (#1.6180)%js) loaded
     ∧ invoke_raw (2 + n) "Back" [p] loaded = Ok (Back p (#1.6180)%js) loaded)
  ∧ (invoke_raw (2 + n) "Elastic" [p; (#0)%js; y] loaded
       = Ok (Elastic p (#1)%js y) loaded
     ∧ invoke_raw (2 + n) "Elastic" [p; (#1)%js; y] loaded
       = Ok (Elastic p (#1)%js y) loaded
     ∧ invoke_raw (2 + n) "Elastic" [p; Undefined; y] loaded
       = Ok (Elastic p (#1)%js y) loaded).
Proof.
  rewrite !raw_Pow, !raw_Back, !raw_Elastic. args.
  rewrite (Pow_falsy p (#0)%js), (Pow_falsy p Undefined),
    (Back_falsy p (#0)%js), (Back_falsy p Undefined),
    (Elastic_falsy p (#0)%js), (Elastic_falsy p Undefined)
    by first [exact falsy_zero | reflexivity].
  rewrite Pow_lit by lra. tauto.
Qed.

(** ** Elastic with a zero amplitude *)

(** C2, as stated, fails: with amplitude [0] the divisor is [0 || 1 = 1],
    and [Elastic(1, 0)] returns the finite number [1]. *)
Lemma Elastic_zero_amplitude_returns :
  invoke_raw 2 "Elastic" [(#1)%js; (#0)%js] loaded = Ok (#1)%js loaded
  ∧ ¬ numeric_failure (invoke_raw 2 "Elastic" [(#1)%js; (#0)%js] loaded).
Proof.
  assert (E : invoke_raw 2 "Elastic" [(#1)%js; (#0)%js] loaded = Ok (#1)%js loaded).
  { rewrite (raw_Elastic 0). args. rewrite Elastic_falsy by exact falsy_zero.
    js_unfold. decide_R.
    replace (2 * PI * (1 - 1) * 300 / (300 * 0.3 / 1))%R with 0%R by lra.
    rewrite cos_0. num_eq. }
  split; [exact E|]. rewrite E. simpl. discriminate.
Qed.

(** C2, amended: an amplitude of [0] causes no division by zero.  The
    divisor is [x || 1], which is [1] for [x = 0], so for every progress and
    period the call runs the computation of amplitude [1] and returns what
    that returns.  Input that is out of domain for the arithmetic itself is
    not trapped: a [NaN] progress comes back as [NaN]. *)
Theorem Elastic_zero_amplitude_guarded (n : nat) (p y : value) :
  (#0 || #1)%js = (#1)%js
  ∧ invoke_raw (2 + n) "Elastic" [p; (#0)%js; y] loaded
    = Ok (Elastic p (#1)%js y) loaded
  ∧ invoke_raw (2 + n) "Elastic" [p; (#0)%js; y] loaded
    = invoke_raw (2 + n) "Elastic" [p; (#1)%js; y] loaded
  ∧ invoke_raw (2 + n) "Elastic" [Num NaN; (#0)%js] loaded = Ok (Num NaN) loaded.
Proof.
  split; [apply js_or_falsy, falsy_zero|].
  rewrite !raw_Elastic. args.
  rewrite !Elastic_falsy by exact falsy_zero.
  split; [done|]. split; [done|].
  js_unfold. reflexivity.
Qed.

(** ** The power family *)

(** C7: [Quad(p) == Pow(p, 2)], [Cubic(p) == Pow(p, 3)],
    [Quart(p) == Pow(p, 4)] and [Quint(p) == Pow(p, 5)] for every [p],
    whatever else the alias is called with. *)
Theorem power_family_identity (n : nat) (p : value) (rest : list value) :
  (invoke_raw (2 + n) "Quad" (p :: rest) loaded = Ok (Math_pow p (#2)%js) loaded
   ∧ invoke_raw (2 + n) "Pow" [p; (#2)%js] loaded = Ok (Math_pow p (#2)%js) loaded)
  ∧ (invoke_raw (2 + n) "Cubic" (p :: rest) loaded = Ok (Math_pow p (#3)%js) loaded
     ∧ invoke_raw (2 + n) "Pow" [p; (#3)%js] loaded = Ok (Math_pow p (#3)%js) loaded)
  ∧ (invoke_raw (2 + n) "Quart" (p :: rest) loaded = Ok (Math_pow p (#4)%js) loaded
     ∧ invoke_raw (2 + n) "Pow" [p; (#4)%js] loaded = Ok (Math_pow p (#4)%js) loaded)
  ∧ (invoke_raw (2 + n) "Quint" (p :: rest) loaded = Ok (Math_pow p (#5)%js) loaded
     ∧ invoke_raw (2 + n) "Pow" [p; (#5)%js] loaded = Ok (Math_pow p (#5)%js) loaded).
Proof.
  assert (alias : ∀ (i : nat) (e : R), (INR i + 2)%R = e → e ≠ 0%R →
            Pow p (#(INR i) + #2)%js = Math_pow p (lit e)).
  { intros i e <- He. apply (Pow_lit p (INR i + 2)), He. }
  rewrite !raw_Pow. args. rewrite !Pow_lit by lra.
  repeat split; run_loaded; args; apply alias; cbn [INR]; lra.
Qed.

(** ** linear *)

Lemma raw_linear (n : nat) (args : list value) :
  invoke_raw (1 + n) "linear" args loaded
  = Ok (linear (arg 0 args) (arg 1 args) (arg 2 args)) loaded.
Proof. run_loaded. reflexivity. Qed.

(** C8, as stated, fails: [linear] is [function(t, c, d)], and with the
    single argument [0.25] both [c] and [d] are [undefined], so the call
    returns [NaN]. *)
Lemma linear_single_argument :
  invoke_raw 1 "linear" [(#0.25)%js] loaded = Ok (Num NaN) loaded
  ∧ invoke_raw 1 "linear" [(#0.25)%js] loaded ≠ Ok (#0.25)%js loaded.
Proof.
  assert (E : invoke_raw 1 "linear" [(#0.25)%js] loaded = Ok (Num NaN) loaded).
  { rewrite (raw_linear 0). reflexivity. }
  split; [exact E|]. rewrite E. discriminate.
Qed.

(** C8, amended: [linear(t, c, d)] is [c * (t / d)]; it is the identity on
    its first argument when called with [c = 1] and [d = 1], so
    [linear(0.25, 1, 1) == 0.25], and with the single argument [0.25] it
    returns [NaN]. *)
Theorem linear_three_arguments (n : nat) :
  (∀ t c d, invoke_raw (1 + n) "linear" [t; c; d] loaded = Ok (c * (t / d))%js loaded)
  ∧ (∀ p : R, invoke_raw (1 + n) "linear" [lit p; (#1)%js; (#1)%js] loaded
              = Ok (lit p) loaded)
  ∧ invoke_raw (1 + n) "linear" [(#0.25)%js; (#1)%js; (#1)%js] loaded
    = Ok (#0.25)%js loaded
  ∧ invoke_raw (1 + n) "linear" [(#0.25)%js] loaded = Ok (Num NaN) loaded.
Proof.
  assert (one : ∀ p : R, linear (lit p) (#1)%js (#1)%js = lit p).
  { intros p. js_unfold. decide_R. num_eq. }
  repeat split; intros; rewrite raw_linear; args; rewrite ?one; reflexivity.
Qed.

(** ** The derived variants *)

(** C3: for each of the eleven families, every [p] and every list of
    forwarded parameters, [easeOut(p, ...params)] returns
    [1 - easeIn(1 - p, ...params)]; both calls return and leave the state
    as it is. *)
Theorem complement_law :
  Forall (λ N, ∀ (n : nat) (p : value) (params : list value), ∃ r,
      invoke (3 + n) N "easeIn" ((#1 - p)%js :: params) loaded = Ok r loaded
      ∧ invoke (3 + n) N "easeOut" (p :: params) loaded = Ok (#1 - r)%js loaded)
    families.
Proof.
  each_family; intros n p params; eexists; split;
    run_loaded; reflexivity.
Qed.

Lemma js_gt_half_not_le (p : value) :
  (#0.5 <? p)%js = true → (p <=? #0.5)%js = false.
Proof.
  unfold js_lt, js_le, lit, ToNumber.
  destruct p as [|[|[]|r]|]; simpl; try done.
  intros H%bool_decide_eq_true_1. apply bool_decide_eq_false_2. lra.
Qed.

(** C4: for each of the eleven families with raw curve [raw = Fx.Transitions[N]],
    every [p] and all forwarded [x], [y], [z]: when [p <= 0.5],
    [easeInOut(p, x, y, z)] is [raw(2p, x, y, z) / 2], and when [p > 0.5] it
    is [(2 - raw(2(1 - p), x, y, z)) / 2]. *)
Theorem easeInOut_halves :
  Forall (λ N, ∀ (n : nat) (p x y z : value),
      ((p <=? #0.5)%js = true → ∃ r,
         invoke_raw (2 + n) N [(#2 * p)%js; x; y; z] loaded = Ok r loaded
         ∧ invoke (3 + n) N "easeInOut" [p; x; y; z] loaded = Ok (r / #2)%js loaded)
      ∧ ((#0.5 <? p)%js = true → ∃ r,
         invoke_raw (2 + n) N [(#2 * (#1 - p))%js; x; y; z] loaded = Ok r loaded
         ∧ invoke (3 + n) N "easeInOut" [p; x; y; z] loaded
           = Ok ((#2 - r) / #2)%js loaded))
    families.
Proof.
  each_family; intros n p x y z; split.
  all: try (intros Hp; eexists; split; [run_loaded; reflexivity|];
            run_loaded; args; rewrite Hp; reflexivity).
  all: intros Hp%js_gt_half_not_le; eexists; split; [run_loaded; reflexivity|];
       run_loaded; args; rewrite Hp; reflexivity.
Qed.

Lemma easeInOut_halves_witness :
  (∃ r, invoke_raw 2 "Pow" [(#2 * #0.25)%js; Undefined; Undefined; Undefined] loaded
        = Ok r loaded
      ∧ invoke 3 "Pow" "easeInOut" [(#0.25)%js; Undefined; Undefined; Undefined] loaded
        = Ok (r / #2)%js loaded)
  ∧ (∃ r, invoke_raw 2 "Pow" [(#2 * (#1 - #0.75))%js; Undefined; Undefined; Undefined] loaded
        = Ok r loaded
      ∧ invoke 3 "Pow" "easeInOut" [(#0.75)%js; Undefined; Undefined; Undefined] loaded
        = Ok ((#2 - r) / #2)%js loaded).
Proof.
  pose proof easeInOut_halves as H. rewrite Forall_forall in H.
  assert (Hin : "Pow" ∈ families) by in_families.
  split.
  - apply (H "Pow" Hin 0%nat (#0.25)%js Undefined Undefined Undefined).
    js_unfold. now decide_R.
  - apply (H "Pow" Hin 0%nat (#0.75)%js Undefined Undefined Undefined).
    js_unfold. now decide_R.
Defined.

(** ** Continuity of [easeInOut] at the split *)

Lemma call_pure (s : state) (f : value) (k : nat) (d : list value → value) :
  pure_fn s f k d →
  ∀ n args r, d args = r → call (k + n) f args s = Ok r s.
Proof. intros Hd n args r <-. apply Hd. Qed.

Ltac run_call :=
  lazymatch goal with
  | |- call (?k + ?n) ?f ?args loaded = _ =>
      eapply (call_pure loaded f k); [pure_loaded | cbv beta]
  end.

(** Brings the arguments of [Rpower], [acos], [sin] and [cos] to the
    points where their values are known. *)
Ltac set_arg a v :=
  tryif constr_eq a v then fail else replace a with v by lra.

Ltac known_points :=
  repeat match goal with
  | |- context [Rpower ?a _] => set_arg a 1%R
  | |- context [acos ?a] => first [set_arg a 0%R | set_arg a 1%R]
  | |- context [sin ?a] => first [set_arg a 0%R | set_arg a (PI / 2)%R]
  | |- context [cos ?a] => set_arg a 0%R
  end;
  rewrite ?Rpower_base_1, ?acos_0, ?acos_1, ?sin_0, ?sin_PI2, ?cos_0.





(** ** Binding parameters *)

Lemma body_of_after_alloc (s : state) (c : code) (f : value) (c' : code) :
  body_of s f = Some c' → body_of (after_alloc c s) f = Some c'.
Proof.
  unfold body_of. destruct f as [| |l]; try done. cbn [heap after_alloc].
  destruct (heap s !! l) as [ob|] eqn:E; try done.
  now rewrite (lookup_app_l_Some _ _ _ _ E).
Qed.

Lemma body_of_fresh (s : state) (c : code) :
  body_of (after_alloc c s) (Obj (length (heap s))) = Some c.
Proof.
  unfold body_of. cbn [heap after_alloc].
  rewrite lookup_app_r by lia. now rewrite Nat.sub_diag.
Qed.

Section Binding.
Variables (s : state) (setter curve : value) (a b : list value).
Hypothesis setter_code : body_of s setter = Some (Csetter curve).

(** C6: [set(...a)] returns a new function object, [bound_a], with
    [bound_a(progress) == curve(progress, ...a)].  The call only adds that
    object: every object that was there, the captured curve among them,
    and the registry stay as they were.  A second binding [set(...b)] on
    the same curve gives another object, and after it each of the two
    still returns what the curve returns on its own bound values. *)
Theorem set_binds_parameters :
  let s1 := after_alloc (Cbound curve a) s in
  let s2 := after_alloc (Cbound curve b) s1 in
  let bound_a := Obj (length (heap s)) in
  let bound_b := Obj (length (heap s1)) in
  (∀ n, call (S n) setter a s = Ok bound_a s1)
  ∧ (∀ n, call (S n) setter b s1 = Ok bound_b s2)
  ∧ (∀ l ob, heap s !! l = Some ob → heap s2 !! l = Some ob)
  ∧ Fx_Transitions s2 = Fx_Transitions s
  ∧ bound_a ≠ bound_b
  ∧ (∀ n progress,
       call (S n) bound_a [progress] s2 = call n curve (progress :: a) s2
       ∧ call (S n) bound_b [progress] s2 = call n curve (progress :: b) s2).
Proof.
  intros s1 s2 bound_a bound_b.
  assert (code_1 : body_of s1 setter = Some (Csetter curve))
    by now apply body_of_after_alloc.
  assert (code_a : body_of s2 bound_a = Some (Cbound curve a))
    by apply body_of_after_alloc, body_of_fresh.
  assert (code_b : body_of s2 bound_b = Some (Cbound curve b))
    by apply body_of_fresh.
  split; [|split; [|split; [|split; [|split]]]].
  - intros n. rewrite (call_body _ _ _ _ _ setter_code). reflexivity.
  - intros n. rewrite (call_body _ _ _ _ _ code_1). reflexivity.
  - intros l ob E. cbn [heap s2 s1 after_alloc].
    now apply lookup_app_l_Some, lookup_app_l_Some.
  - reflexivity.
  - unfold bound_a, bound_b, s1. cbn [heap after_alloc].
    rewrite length_app. cbn [length]. intros [= H]. lia.
  - intros n progress.
    rewrite (call_body _ _ _ _ _ code_a), (call_body _ _ _ _ _ code_b).
    split; reflexivity.
Qed.

End Binding.

Lemma set_binds_parameters_witness :
  let s1 := after_alloc (Cbound (Obj 8) [(#2)%js]) loaded in
  let s2 := after_alloc (Cbound (Obj 8) [(#3)%js]) s1 in
  body_of loaded (Obj 11) = Some (Csetter (Obj 8))
  ∧ call 1 (Obj 11) [(#2)%js] loaded = Ok (Obj (length (heap loaded))) s1
  ∧ call 1 (Obj 11) [(#3)%js] s1 = Ok (Obj (length (heap s1))) s2
  ∧ call 4 (Obj (length (heap loaded))) [(#0.5)%js] s2
    = call 3 (Obj 8) [(#0.5)%js; (#2)%js] s2
  ∧ call 4 (Obj (length (heap s1))) [(#0.5)%js] s2
    = call 3 (Obj 8) [(#0.5)%js; (#3)%js] s2.
Proof.
  intros s1 s2.
  assert (H : body_of loaded (Obj 11) = Some (Csetter (Obj 8))) by by_computation.
  pose proof (set_binds_parameters loaded (Obj 11) (Obj 8) [(#2)%js] [(#3)%js] H) as HH.
  cbv zeta in HH.
  destruct HH as (Ha & Hb & _ & _ & _ & Hcall).
  split; [exact H|]. 
  split; [exact (Ha 0%nat)|]. 
  split; [exact (Hb 0%nat)|].
  destruct (Hcall 3%nat (#0.5)%js) as [H1 H2].
  split; [exact H1 | exact H2].
Defined.

(** ** The compatibility aliases *)

Lemma alias_same_call (s : state) (N mode alias : string) (family variant : value) :
  Fx_Transitions s !! N = Some family →
  prop_of s family mode = Some variant →
  Fx_Transitions s !! alias = Some variant →
  ∀ fuel args, invoke_raw fuel alias args s = invoke fuel N mode args s.
Proof.
  intros Hf Hv Ha fuel args.
  unfold invoke_raw, invoke, mbind, M_bind, registry_get, get_prop.
  rewrite Hf, Ha. simpl. destruct family as [| |l]; try discriminate.
  simpl in Hv. destruct (heap s !! l) as [ob|]; try discriminate.
  simpl in Hv. rewrite Hv. reflexivity.
Qed.

(** C10: for each of the eleven families [N], the registry entries
    [lowercase(N) + "In"], [+ "Out"] and [+ "InOut"] hold the very function
    objects that are [N.easeIn], [N.easeOut] and [N.easeInOut], so calling
    through either name is the same call. *)
Theorem compatibility_aliases :
  Forall (λ N, ∃ family,
      Fx_Transitions loaded !! N = Some family
      ∧ Forall (λ mode, ∃ variant,
            is_Some (body_of loaded variant)
            ∧ prop_of loaded family ("ease" +:+ mode) = Some variant
            ∧ Fx_Transitions loaded !! (toLowerCase N +:+ mode) = Some variant
            ∧ ∀ fuel args,
                invoke_raw fuel (toLowerCase N +:+ mode) args loaded
                = invoke fuel N ("ease" +:+ mode) args loaded)
          ["In"; "Out"; "InOut"])
    families.
Proof.
  each_family;
    lazymatch goal with
    | |- ∃ family, Fx_Transitions loaded !! ?N = _ ∧ _ =>
        let f := eval vm_compute in (default Undefined (Fx_Transitions loaded !! N)) in
        exists f;
        assert (Hf : Fx_Transitions loaded !! N = Some f) by by_computation;
        split; [exact Hf|]
    end;
    each_family;
    lazymatch goal with
    | |- ∃ variant, _ ∧ prop_of loaded ?f ?k = _ ∧ _ =>
        let v := eval vm_compute in (default Undefined (prop_of loaded f k)) in
        exists v;
        assert (Hp : prop_of loaded f k = Some v) by by_computation
    end;
    lazymatch goal with
    | |- _ ∧ _ ∧ Fx_Transitions loaded !! ?alias = Some ?v ∧ _ =>
        assert (Ha : Fx_Transitions loaded !! alias = Some v) by by_computation
    end;
    lazymatch goal with
    | |- is_Some (body_of loaded ?v) ∧ _ =>
        let c := eval vm_compute in (body_of loaded v) in
        lazymatch c with
        | Some ?c' => split; [exists c'; by_computation|]
        end
    end;
    (split; [exact Hp|]); (split; [exact Ha|]);
    exact (alias_same_call loaded _ _ _ _ _ Hf Hp Ha).
Qed.

(** Every variant of every family carries its own setter as [set]: the
    function object that [Fx.Shared.SetTransitionValues] made for it. *)
Lemma registered_setters :
  Forall (λ N, ∃ family,
      Fx_Transitions loaded !! N = Some family
      ∧ Forall (λ mode, ∃ variant setter,
            prop_of loaded family mode = Some variant
            ∧ prop_of loaded variant "set" = Some setter
            ∧ body_of loaded setter = Some (Csetter variant))
          ["easeIn"; "easeOut"; "easeInOut"])
    families.
Proof.
  each_family;
    lazymatch goal with
    | |- ∃ family, Fx_Transitions loaded !! ?N = _ ∧ _ =>
        let f := eval vm_compute in (default Undefined (Fx_Transitions loaded !! N)) in
        exists f; split; [by_computation|]
    end;
    each_family;
    lazymatch goal with
    | |- ∃ variant setter, prop_of loaded ?f ?k = _ ∧ _ =>
        let v := eval vm_compute in (default Undefined (prop_of loaded f k)) in
        let g := eval vm_compute in (default Undefined (prop_of loaded v "set")) in
        exists v, g; repeat split; by_computation
    end.
Qed.

(** ** Sample values *)

Example Pow_easeIn_half (n : nat) :
  invoke (3 + n) "Pow" "easeIn" [(#0.5)%js] loaded = Ok (#0.015625)%js loaded.
Proof.
  run_loaded. js_eval.
  replace 6%R with (INR 6) by (cbn [INR]; lra).
  rewrite Rpower_pow by lra. num_eq.
Qed.

Example Quad_easeOut_half (n : nat) :
  invoke (3 + n) "Quad" "easeOut" [(#0.5)%js] loaded = Ok (#0.75)%js loaded.
Proof.
  run_loaded. js_eval.
  replace (0 + 2)%R with (INR 2) by (cbn [INR]; lra).
  rewrite Rpower_pow by lra. num_eq.
Qed.

Example Bounce_easeInOut_quarter (n : nat) :
  invoke (3 + n) "Bounce" "easeInOut" [(#0.25)%js] loaded = Ok (#0.1171875)%js loaded.
Proof. run_loaded. js_eval. num_eq. Qed.

(** * Further properties of the script *)

(** ** What a call does to the state *)

Lemma bind_Ok {A B} (m : M A) (k : A → M B) (s s' : state) (b : B) :
  (a ← m; k a) s = Ok b s' →
  ∃ a s1, m s = Ok a s1 ∧ k a s1 = Ok b s'.
Proof.
  unfold mbind, M_bind. destruct (m s) as [a s1| |]; try discriminate.
  intros H. now exists a, s1.
Qed.

Lemma call_Ok_inv (n : nat) (f : value) (args : list value) (s s' : state)
    (r : value) :
  call n f args s = Ok r s' →
  ∃ m c, n = S m ∧ body_of s f = Some c
         ∧ apply_code (call m) c args s = Ok r s'.
Proof.
  destruct n as [|m]; [discriminate|]. intros H.
  change (call (S m) f args s)
    with ((ob ← get_function f; apply_code (call m) (body ob) args) s) in H.
  apply bind_Ok in H as (ob & s1 & Hf & H).
  unfold get_function in Hf. destruct f as [| |l]; try discriminate.
  destruct (heap s !! l) as [ob'|] eqn:E; try discriminate.
  injection Hf as -> ->.
  exists m, (body ob). repeat split; [|exact H].
  unfold body_of. now rewrite E.
Qed.


(** A call that returns either leaves the state as it is, or adds exactly
    one bound closure to the heap.  Either way the registry is what it was
    and every object that was in the heap is still there, unchanged. *)
Theorem call_adds_at_most_one_closure (n : nat) (f : value) (args : list value)
    (s s' : state) (r : value) :
  call n f args s = Ok r s' →
  (s' = s ∨ ∃ transition bound, s' = after_alloc (Cbound transition bound) s)
  ∧ Fx_Transitions s' = Fx_Transitions s
  ∧ (∀ l ob, heap s !! l = Some ob → heap s' !! l = Some ob).
Proof.
  intros H.
  assert (Hs : s' = s ∨ ∃ transition bound,
                 s' = after_alloc (Cbound transition bound) s).
  { revert f args r H. induction n as [|n IH]; intros f args r H; [discriminate|].
    apply call_Ok_inv in H as (m & c & [= <-] & _ & H).
    destruct c; cbn [apply_code] in H;
      try (injection H as _ <-; now left).
    - apply bind_Ok in H as (pow & s1 & Hp & H). injection Hp as _ <-.
      now apply IH in H.
    - now apply IH in H.
    - apply bind_Ok in H as (r0 & s1 & H0 & H). injection H as _ <-.
      now apply IH in H0.
    - destruct (arg 0 args <=? #0.5)%js;
        apply bind_Ok in H as (r0 & s1 & H0 & H); injection H as _ <-;
        now apply IH in H0.
    - injection H as _ <-. right. now exists transition, args.
    - now apply IH in H. }
  split; [exact Hs|].
  destruct Hs as [->|(t & bound & ->)]; [done|].
  split; [reflexivity|]. intros l ob E. cbn [heap after_alloc].
  now apply lookup_app_l_Some.
Qed.

Lemma call_adds_at_most_one_closure_witness :
  call 1 (Obj 11) [(#2)%js] loaded
    = Ok (Obj (length (heap loaded))) (after_alloc (Cbound (Obj 8) [(#2)%js]) loaded)
  ∧ Fx_Transitions (after_alloc (Cbound (Obj 8) [(#2)%js]) loaded)
    = Fx_Transitions loaded.
Proof.
  assert (H : call 1 (Obj 11) [(#2)%js] loaded
              = Ok (Obj (length (heap loaded)))
                   (after_alloc (Cbound (Obj 8) [(#2)%js]) loaded)).
  { rewrite (call_body loaded 0 (Obj 11) (Csetter (Obj 8))) by by_computation.
    reflexivity. }
  split; [exact H|].
  exact (proj1 (proj2 (call_adds_at_most_one_closure _ _ _ _ _ _ H))).
Defined.

(** ** Results do not depend on what is added later *)

Lemma after_alloc_neq (c : code) (s : state) : after_alloc c s ≠ s.
Proof.
  intros H. apply (f_equal (λ x, length (heap x))) in H.
  cbn [heap after_alloc] in H. rewrite length_app in H. cbn [length] in H. lia.
Qed.

Lemma extends_body_of (s s1 : state) (f : value) (c : code) :
  extends s s1 → body_of s f = Some c → body_of s1 f = Some c.
Proof.
  intros [Hh _]. unfold body_of. destruct f as [| |l]; try done.
  destruct (heap s !! l) as [ob|] eqn:E; try done. intros [= <-].
  destruct (Hh l ob E) as (ob' & -> & <-). reflexivity.
Qed.

Lemma call_stable (n : nat) (f : value) (args : list value) (s s1 : state)
    (r : value) :
  call n f args s = Ok r s →
  extends s s1 →
  call n f args s1 = Ok r s1.
Proof.
  intros H Hext. revert f args r H.
  induction n as [|n IH]; intros f args r H; [discriminate|].
  apply call_Ok_inv in H as (m & c & [= <-] & Hb & H).
  rewrite (call_body s1 n f c) by now apply (extends_body_of s).
  destruct c; cbn [apply_code] in *;
    try (injection H as <-; reflexivity).
  - apply bind_Ok in H as (pow & s2 & Hp & H). injection Hp as <- <-.
    unfold mbind, M_bind, registry_get in *.
    destruct (Fx_Transitions s !! "Pow") as [v|] eqn:E.
    + rewrite (proj2 Hext _ _ E). cbn [default from_option id] in *.
      now apply IH.
    + cbn [default from_option id] in H.
      apply call_Ok_inv in H as (? & ? & _ & ? & _). discriminate.
  - now apply IH.
  - apply bind_Ok in H as (r0 & s2 & H0 & H). injection H as <- ->.
    unfold mbind, M_bind. now rewrite (IH _ _ _ H0).
  - unfold easeInOut_first_half, easeInOut_second_half in *.
    destruct (arg 0 args <=? #0.5)%js;
      apply bind_Ok in H as (r0 & s2 & H0 & H); injection H as <- ->;
      unfold mbind, M_bind; now rewrite (IH _ _ _ H0).
  - injection H as _ H. now apply after_alloc_neq in H.
  - now apply IH.
Qed.

(** A call that returns without changing the state returns the same value
    in every state that keeps the code of the function objects and the
    entries of the registry, whatever else that state holds: bound
    closures made since, properties set since, families registered since. *)
Theorem unchanged_result_in_later_states (n : nat) (f : value)
    (args : list value) (s s1 : state) (r : value) :
  call n f args s = Ok r s →
  extends s s1 →
  call n f args s1 = Ok r s1.
Proof. apply call_stable. Qed.

Lemma extends_after_alloc (c : code) (s : state) : extends s (after_alloc c s).
Proof.
  split; [|done]. intros l ob E. exists ob. split; [|done].
  cbn [heap after_alloc]. now apply lookup_app_l_Some.
Qed.

Lemma unchanged_result_in_later_states_witness :
  call 3 (Obj 8) [(#1)%js] (after_alloc (Cbound (Obj 8) [(#2)%js]) loaded)
  = Ok (#1)%js (after_alloc (Cbound (Obj 8) [(#2)%js]) loaded).
Proof.
  assert (H : call (2 + 1) (Obj 8) [(#1)%js] loaded = Ok (#1)%js loaded).
  { run_call. js_eval. rewrite Rpower_base_1. reflexivity. }
  exact (unchanged_result_in_later_states 3 (Obj 8) [(#1)%js] loaded _ _ H
           (extends_after_alloc _ loaded)).
Defined.

(** ** Binding through the registry *)

Lemma invoke_set_call (s : state) (N mode : string) (family variant setter : value)
    (fixed : list value) (m : nat) :
  Fx_Transitions s !! N = Some family →
  prop_of s family mode = Some variant →
  prop_of s variant "set" = Some setter →
  invoke_set m N mode fixed s = call m setter fixed s.
Proof.
  intros Hf Hv Hg.
  unfold invoke_set, mbind, M_bind, registry_get, get_prop.
  rewrite Hf. simpl. destruct family as [| |lf]; try discriminate.
  simpl in Hv. destruct (heap s !! lf) as [obf|]; try discriminate.
  simpl in Hv. rewrite Hv. simpl.
  destruct variant as [| |lv]; try discriminate.
  simpl in Hg. destruct (heap s !! lv) as [obv|]; try discriminate.
  simpl in Hg. rewrite Hg. reflexivity.
Qed.

Lemma invoke_set_runs (s : state) (N mode : string) (family variant setter : value)
    (fixed : list value) (n : nat) :
  Fx_Transitions s !! N = Some family →
  prop_of s family mode = Some variant →
  prop_of s variant "set" = Some setter →
  body_of s setter = Some (Csetter variant) →
  invoke_set (S n) N mode fixed s
  = Ok (Obj (length (heap s))) (after_alloc (Cbound variant fixed) s).
Proof.
  intros Hf Hv Hg Hb.
  rewrite (invoke_set_call s N mode family variant setter) by assumption.
  rewrite (call_body s n setter (Csetter variant)) by exact Hb.
  reflexivity.
Qed.

Lemma invoke_call (s : state) (N mode : string) (family variant : value)
    (args : list value) (m : nat) :
  Fx_Transitions s !! N = Some family →
  prop_of s family mode = Some variant →
  invoke m N mode args s = call m variant args s.
Proof.
  intros Hf Hv.
  unfold invoke, mbind, M_bind, registry_get, get_prop.
  rewrite Hf. simpl. destruct family as [| |lf]; try discriminate.
  simpl in Hv. destruct (heap s !! lf) as [obf|]; try discriminate.
  simpl in Hv. rewrite Hv. reflexivity.
Qed.

Lemma bound_call (s : state) (variant : value) (fixed args : list value)
    (n : nat) (r : value) :
  call n variant (args ++ fixed) s = Ok r s →
  call (S n) (Obj (length (heap s))) args (after_alloc (Cbound variant fixed) s)
  = Ok r (after_alloc (Cbound variant fixed) s).
Proof.
  intros H.
  rewrite (call_body _ n _ (Cbound variant fixed)) by apply body_of_fresh.
  cbn [apply_code].
  exact (call_stable _ _ _ _ _ _ H (extends_after_alloc _ s)).
Qed.

(** For every variant of every registered family:
    [Fx.Transitions[N][mode].set(...fixed)] returns a new function, and
    calling that function with [args] returns what the variant itself
    returns on [args] followed by [fixed].  With the one argument [p] this
    is [N.mode(p, ...fixed)]; arguments given beyond the progress come
    before the fixed values and push them to later parameters. *)
Theorem set_on_registered_variants :
  Forall (λ N, Forall (λ mode, ∀ (n : nat) (fixed args : list value),
      ∃ bound s1 r,
        invoke_set (1 + n) N mode fixed loaded = Ok bound s1
        ∧ invoke (3 + n) N mode (args ++ fixed) loaded = Ok r loaded
        ∧ call (4 + n) bound args s1 = Ok r s1)
    ["easeIn"; "easeOut"; "easeInOut"]) families.
Proof.
  each_family; each_family; intros n fixed args;
    lazymatch goal with
    | |- ∃ bound s1 r, invoke_set _ ?N ?mode _ _ = _ ∧ _ =>
        let f := eval vm_compute in (default Undefined (Fx_Transitions loaded !! N)) in
        let v := eval vm_compute in (default Undefined (prop_of loaded f mode)) in
        let g := eval vm_compute in (default Undefined (prop_of loaded v "set")) in
        assert (Hf : Fx_Transitions loaded !! N = Some f) by by_computation;
        assert (Hv : prop_of loaded f mode = Some v) by by_computation;
        assert (Hg : prop_of loaded v "set" = Some g) by by_computation;
        assert (Hb : body_of loaded g = Some (Csetter v)) by by_computation;
        assert (Hr : ∃ r, call (3 + n) v (args ++ fixed) loaded = Ok r loaded)
          by (eexists; run_call; reflexivity);
        destruct Hr as [r Hr];
        exists (Obj (length (heap loaded))),
               (after_alloc (Cbound v fixed) loaded), r;
        split; [exact (invoke_set_runs loaded N mode f v g fixed n Hf Hv Hg Hb)|];
        split; [|exact (bound_call loaded v fixed args (3 + n) r Hr)];
        rewrite (invoke_call loaded N mode f v) by assumption; exact Hr
    end.
Qed.

(** ** How the registration steps change the state *)

Lemma set_prop_Ok (s : state) (l : nat) (k : string) (v : value) :
  l < length (heap s) →
  set_prop (Obj l) k v s = Ok () (after_set_prop l k v s).
Proof.
  intros Hl. unfold set_prop, after_set_prop.
  destruct (lookup_lt_is_Some_2 (heap s) l Hl) as [ob E]. rewrite E.
  do 2 f_equal. apply list_eq. intros i.
  destruct (decide (l = i)) as [->|Hne].
  - rewrite list_lookup_insert_eq, list_lookup_alter_eq, E by done. reflexivity.
  - now rewrite list_lookup_insert_ne, list_lookup_alter_ne by done.
Qed.

Lemma get_prop_Ok (s : state) (l : nat) (k : string) :
  l < length (heap s) →
  get_prop (Obj l) k s = Ok (default Undefined (prop_of s (Obj l) k)) s.
Proof.
  intros Hl. unfold get_prop, prop_of.
  destruct (lookup_lt_is_Some_2 (heap s) l Hl) as [ob E]. now rewrite E.
Qed.

Lemma length_after_alloc (c : code) (s : state) :
  length (heap (after_alloc c s)) = S (length (heap s)).
Proof. cbn [heap after_alloc]. rewrite length_app. cbn [length]. lia. Qed.

Lemma length_after_set_prop (l : nat) (k : string) (v : value) (s : state) :
  length (heap (after_set_prop l k v s)) = length (heap s).
Proof. apply length_alter. Qed.

Lemma body_of_after_set_prop (l : nat) (k : string) (v : value) (s : state)
    (f : value) :
  body_of (after_set_prop l k v s) f = body_of s f.
Proof.
  unfold body_of, after_set_prop. destruct f as [| |l']; try done. cbn [heap].
  destruct (decide (l = l')) as [->|Hne].
  - rewrite list_lookup_alter_eq. now destruct (heap s !! l').
  - now rewrite list_lookup_alter_ne.
Qed.

Lemma prop_of_after_alloc (c : code) (s : state) (l : nat) (k : string) :
  l < length (heap s) →
  prop_of (after_alloc c s) (Obj l) k = prop_of s (Obj l) k.
Proof.
  intros Hl. unfold prop_of. cbn [heap after_alloc].
  now rewrite lookup_app_l.
Qed.

Lemma prop_of_after_set_prop_eq (l : nat) (k : string) (v : value) (s : state) :
  l < length (heap s) →
  prop_of (after_set_prop l k v s) (Obj l) k = Some v.
Proof.
  intros Hl. unfold prop_of, after_set_prop. cbn [heap].
  rewrite list_lookup_alter_eq.
  destruct (lookup_lt_is_Some_2 (heap s) l Hl) as [ob E]. rewrite E.
  cbn. apply lookup_insert_eq.
Qed.

Lemma prop_of_after_set_prop_ne (l : nat) (k : string) (v : value) (s : state)
    (l' : nat) (k' : string) :
  l ≠ l' ∨ k ≠ k' →
  prop_of (after_set_prop l k v s) (Obj l') k' = prop_of s (Obj l') k'.
Proof.
  intros Hne. unfold prop_of, after_set_prop. cbn [heap].
  destruct (decide (l = l')) as [->|Hl].
  - rewrite list_lookup_alter_eq. destruct (heap s !! l') as [ob|]; [|done].
    cbn. apply lookup_insert_ne. now destruct Hne.
  - now rewrite list_lookup_alter_ne.
Qed.

Lemma string_length_app (a b : string) :
  String.length (a +:+ b) = String.length a + String.length b.
Proof. induction a as [|c a IH]; simpl; [done|]. now f_equal. Qed.

Lemma toLowerCase_length (type : string) :
  String.length (toLowerCase type) = String.length type.
Proof. induction type as [|c type IH]; simpl; [done|]. now f_equal. Qed.

(** A name is never one of its own aliases. *)
Lemma alias_neq_type (type mode : string) :
  mode ≠ "" → toLowerCase type +:+ mode ≠ type.
Proof.
  intros Hm E. pose proof (f_equal String.length E) as El.
  rewrite string_length_app, toLowerCase_length in El.
  destruct mode; [done|]. cbn [String.length] in El. lia.
Qed.

Lemma alias_inj (type mode mode' : string) :
  toLowerCase type +:+ mode = toLowerCase type +:+ mode' → mode = mode'.
Proof. apply String.app_inj. Qed.

(** ** [Fx.Shared.CreateTransitionEases] on any function object *)

Lemma alloc_Ok (c : code) (s : state) :
  alloc c s = Ok (Obj (length (heap s))) (after_alloc c s).
Proof. reflexivity. Qed.

Lemma registry_set_Ok (k : string) (v : value) (s : state) :
  registry_set k v s = Ok () (after_registry_set k v s).
Proof. reflexivity. Qed.

Lemma prop_of_after_registry_set (k : string) (v : value) (s : state)
    (f : value) (k' : string) :
  prop_of (after_registry_set k v s) f k' = prop_of s f k'.
Proof. reflexivity. Qed.

Lemma body_of_after_registry_set (k : string) (v : value) (s : state) (f : value) :
  body_of (after_registry_set k v s) f = body_of s f.
Proof. reflexivity. Qed.

Lemma length_after_registry_set (k : string) (v : value) (s : state) :
  length (heap (after_registry_set k v s)) = length (heap s).
Proof. reflexivity. Qed.

Lemma body_of_after_alloc_old (c : code) (s : state) (l : nat) :
  l < length (heap s) →
  body_of (after_alloc c s) (Obj l) = body_of s (Obj l).
Proof.
  intros Hl. unfold body_of. cbn [heap after_alloc]. now rewrite lookup_app_l.
Qed.

Lemma body_of_after_alloc_new (c : code) (s : state) (l : nat) :
  l = length (heap s) →
  body_of (after_alloc c s) (Obj l) = Some c.
Proof. intros ->. apply body_of_fresh. Qed.

Lemma registry_after_alloc (c : code) (s : state) :
  Fx_Transitions (after_alloc c s) = Fx_Transitions s.
Proof. reflexivity. Qed.

Lemma registry_after_set_prop (l : nat) (k : string) (v : value) (s : state) :
  Fx_Transitions (after_set_prop l k v s) = Fx_Transitions s.
Proof. reflexivity. Qed.

Lemma registry_after_registry_set (k : string) (v : value) (s : state) :
  Fx_Transitions (after_registry_set k v s) = <[k := v]> (Fx_Transitions s).
Proof. reflexivity. Qed.

Ltac norm_lengths :=
  repeat first [ rewrite length_after_set_prop
               | rewrite length_after_alloc
               | rewrite length_after_registry_set ].

Ltac lengths := norm_lengths; lia.

(** Two locations differ, or two property names do. *)
Ltac differ :=
  solve [ left; lengths
        | right; cbn [String.append]; first [discriminate | congruence] ].

Ltac read_props :=
  repeat first
    [ rewrite prop_of_after_registry_set
    | rewrite prop_of_after_set_prop_eq by lengths
    | rewrite prop_of_after_set_prop_ne by differ
    | rewrite prop_of_after_alloc by lengths ].

Ltac read_bodies :=
  repeat first
    [ rewrite body_of_after_registry_set
    | rewrite body_of_after_set_prop
    | rewrite body_of_after_alloc_new by lengths
    | rewrite body_of_after_alloc_old by lengths ].

(** Two aliases of one name differ when their suffixes do, and none is the
    name itself. *)
Ltac keys_differ :=
  solve [ intros E%alias_inj; discriminate
        | apply alias_neq_type; discriminate
        | apply not_eq_sym, alias_neq_type; discriminate
        | congruence ].

Ltac read_registry :=
  repeat first
    [ rewrite registry_after_alloc
    | rewrite registry_after_set_prop
    | rewrite registry_after_registry_set
    | rewrite lookup_insert_eq
    | rewrite lookup_insert_ne by keys_differ ].

Ltac run_step :=
  cbn [mret M_ret default from_option Datatypes.id];
  first
    [ rewrite alloc_Ok
    | rewrite registry_set_Ok
    | rewrite set_prop_Ok by lengths
    | rewrite get_prop_Ok by lengths; read_props ];
  norm_lengths.

Ltac run_steps := repeat run_step; cbn [mret M_ret default from_option Datatypes.id].

Lemma CreateTransitionEases_run (s : state) (t : nat) (type : string) :
  t < length (heap s) →
  let n := length (heap s) in
  ∃ s', CreateTransitionEases (Obj t) type s = Ok () s'
    ∧ length (heap s') = n + 6
    ∧ variant_installed s' (Obj t) type "In" CeaseIn (Obj n) (Obj (n + 3))
    ∧ variant_installed s' (Obj t) type "Out" CeaseOut (Obj (n + 1)) (Obj (n + 4))
    ∧ variant_installed s' (Obj t) type "InOut" CeaseInOut (Obj (n + 2)) (Obj (n + 5))
    ∧ (∀ l, l < n → body_of s' (Obj l) = body_of s (Obj l))
    ∧ (∀ l k, l < n → l ≠ t → prop_of s' (Obj l) k = prop_of s (Obj l) k)
    ∧ (∀ k, k ∉ ["easeIn"; "easeOut"; "easeInOut"] →
            prop_of s' (Obj t) k = prop_of s (Obj t) k)
    ∧ (∀ k, k ∉ [toLowerCase type +:+ "In"; toLowerCase type +:+ "Out";
                 toLowerCase type +:+ "InOut"] →
            Fx_Transitions s' !! k = Fx_Transitions s !! k).
Proof.
  intros Ht n.
  eexists. split.
  { unfold CreateTransitionEases, SetTransitionValues, mbind, M_bind.
    cbn [js_extend each]. unfold mbind, M_bind.
    run_steps. reflexivity. }
  fold n. rewrite !Nat.add_succ_r, !Nat.add_0_r.
  unfold variant_installed. cbn [String.append].
  repeat split.
  all: try (intros l k Hl Hne); try (intros l Hl).
  all: try (read_bodies; reflexivity).
  all: try (read_props; reflexivity).
  all: try (read_registry; reflexivity).
  all: try lengths.
  all: apply not_elem_of_cons in Hl as [H1 Hl];
       apply not_elem_of_cons in Hl as [H2 Hl];
       apply not_elem_of_cons in Hl as [H3 _].
  - read_props. reflexivity.
  - read_registry. reflexivity.
Qed.

(** On a function object [transition] of any state,
    [Fx.Shared.CreateTransitionEases] returns and leaves six new function
    objects, the three variants and a setter for each, with every variant
    in place: a property of [transition], aliased in the registry, carrying
    its own [set].  Nothing else changes: the code of every object, the
    properties of every other object, the other properties of [transition]
    and the other registry entries are what they were. *)
Theorem CreateTransitionEases_installs (s : state) (t : nat) (type : string) :
  t < length (heap s) →
  let n := length (heap s) in
  ∃ s', CreateTransitionEases (Obj t) type s = Ok () s'
    ∧ length (heap s') = n + 6
    ∧ variant_installed s' (Obj t) type "In" CeaseIn (Obj n) (Obj (n + 3))
    ∧ variant_installed s' (Obj t) type "Out" CeaseOut (Obj (n + 1)) (Obj (n + 4))
    ∧ variant_installed s' (Obj t) type "InOut" CeaseInOut (Obj (n + 2)) (Obj (n + 5))
    ∧ (∀ l, l < n → body_of s' (Obj l) = body_of s (Obj l))
    ∧ (∀ l k, l < n → l ≠ t → prop_of s' (Obj l) k = prop_of s (Obj l) k)
    ∧ (∀ k, k ∉ ["easeIn"; "easeOut"; "easeInOut"] →
            prop_of s' (Obj t) k = prop_of s (Obj t) k)
    ∧ (∀ k, k ∉ [toLowerCase type +:+ "In"; toLowerCase type +:+ "Out";
                 toLowerCase type +:+ "InOut"] →
            Fx_Transitions s' !! k = Fx_Transitions s !! k).
Proof. apply CreateTransitionEases_run. Qed.

Lemma CreateTransitionEases_installs_witness :
  ∃ s', CreateTransitionEases (Obj 0) "Plain" loaded = Ok () s'
    ∧ length (heap s') = length (heap loaded) + 6
    ∧ Fx_Transitions s' !! "plainOut" = Some (Obj (length (heap loaded) + 1))
    ∧ Fx_Transitions s' !! "powOut" = Fx_Transitions loaded !! "powOut".
Proof.
  assert (H0 : 0 < length (heap loaded)) by (rewrite loaded_heap_size; lia).
  destruct (CreateTransitionEases_installs loaded 0 "Plain" H0)
    as (s' & Hrun & Hlen & _ & (_ & _ & Hout & _) & _ & _ & _ & _ & Hreg).
  exists s'. split; [exact Hrun|]. split; [exact Hlen|]. split; [exact Hout|].
  apply Hreg. change (toLowerCase "Plain") with "plain". cbn [String.append].
  intros H. repeat (apply elem_of_cons in H as [H|H]; [discriminate|]).
  inversion H.
Defined.

(** ** [Fx.Transitions.extend] *)

Lemma variant_installed_after_registry_set (s : state) (transition v : value)
    (type mode : string) (mk : value → code) (variant setter : value) :
  mode ≠ "" →
  variant_installed s transition type mode mk variant setter →
  variant_installed (after_registry_set type v s) transition type mode mk
    variant setter.
Proof.
  intros Hm (Hb & Hp & Hr & Hs & Hc). repeat split; try assumption.
  rewrite registry_after_registry_set, lookup_insert_ne; [exact Hr|].
  now apply not_eq_sym, alias_neq_type.
Qed.

(** Registering a function object under a name that starts with a capital
    letter: the name now maps to that object, whatever it mapped to before,
    and the object has its three variants in place, aliases included.  Six
    objects are added, and no registry entry other than the name and its
    three aliases changes. *)
Theorem extend_registers_family (s : state) (t : nat) (type : string) :
  t < length (heap s) →
  test_upper_initial type = true →
  let n := length (heap s) in
  ∃ s', extend [(type, Obj t)] s = Ok () s'
    ∧ Fx_Transitions s' !! type = Some (Obj t)
    ∧ length (heap s') = n + 6
    ∧ variant_installed s' (Obj t) type "In" CeaseIn (Obj n) (Obj (n + 3))
    ∧ variant_installed s' (Obj t) type "Out" CeaseOut (Obj (n + 1)) (Obj (n + 4))
    ∧ variant_installed s' (Obj t) type "InOut" CeaseInOut (Obj (n + 2)) (Obj (n + 5))
    ∧ (∀ l, l < n → body_of s' (Obj l) = body_of s (Obj l))
    ∧ (∀ k, k ∉ [type; toLowerCase type +:+ "In"; toLowerCase type +:+ "Out";
                 toLowerCase type +:+ "InOut"] →
            Fx_Transitions s' !! k = Fx_Transitions s !! k).
Proof.
  intros Ht Hup n.
  destruct (CreateTransitionEases_run s t type Ht)
    as (s1 & Hrun & Hlen & HIn & HOut & HInOut & Hbody & _ & _ & Hreg).
  exists (after_registry_set type (Obj t) s1).
  split.
  { unfold extend. cbn [each]. rewrite Hup. unfold mbind, M_bind.
    rewrite Hrun. reflexivity. }
  split; [rewrite registry_after_registry_set; apply lookup_insert_eq|].
  split; [exact Hlen|].
  split; [now apply variant_installed_after_registry_set|].
  split; [now apply variant_installed_after_registry_set|].
  split; [now apply variant_installed_after_registry_set|].
  split; [exact Hbody|].
  intros k Hk. apply not_elem_of_cons in Hk as [Hk Hrest].
  rewrite registry_after_registry_set, lookup_insert_ne by congruence.
  now apply Hreg.
Qed.

Lemma extend_registers_family_witness :
  ∃ s', extend [("Plain", Obj 0)] loaded = Ok () s'
    ∧ Fx_Transitions s' !! "Plain" = Some (Obj 0)
    ∧ Fx_Transitions s' !! "plainIn" = Some (Obj (length (heap loaded)))
    ∧ Fx_Transitions s' !! "linear" = Fx_Transitions loaded !! "linear".
Proof.
  assert (H0 : 0 < length (heap loaded)) by (rewrite loaded_heap_size; lia).
  destruct (extend_registers_family loaded 0 "Plain" H0 eq_refl)
    as (s' & Hrun & Hname & _ & (_ & _ & HIn & _) & _ & _ & _ & Hreg).
  exists s'. split; [exact Hrun|]. split; [exact Hname|]. split; [exact HIn|].
  apply Hreg. change (toLowerCase "Plain") with "plain". cbn [String.append].
  intros H. repeat (apply elem_of_cons in H as [H|H]; [discriminate|]).
  inversion H.
Defined.

(** Registering a function object under any other name: the name now maps
    to that object and the object gets a setter of its own as [set].  One
    object is added; the object gets no variants, there are no aliases, and
    no other registry entry changes. *)
Theorem extend_registers_bare (s : state) (t : nat) (type : string) :
  t < length (heap s) →
  test_upper_initial type = false →
  let n := length (heap s) in
  ∃ s', extend [(type, Obj t)] s = Ok () s'
    ∧ Fx_Transitions s' !! type = Some (Obj t)
    ∧ length (heap s') = n + 1
    ∧ prop_of s' (Obj t) "set" = Some (Obj n)
    ∧ body_of s' (Obj n) = Some (Csetter (Obj t))
    ∧ (∀ l, l < n → body_of s' (Obj l) = body_of s (Obj l))
    ∧ (∀ l k, l < n → l ≠ t ∨ k ≠ "set" →
              prop_of s' (Obj l) k = prop_of s (Obj l) k)
    ∧ (∀ k, k ≠ type → Fx_Transitions s' !! k = Fx_Transitions s !! k).
Proof.
  intros Ht Hup n.
  eexists. split.
  { unfold extend, SetTransitionValues. cbn [each]. rewrite Hup.
    unfold mbind, M_bind. run_steps. reflexivity. }
  fold n. rewrite !Nat.add_succ_r, !Nat.add_0_r.
  repeat split.
  all: try (intros l k Hl Hne); try (intros l Hl).
  all: try (read_bodies; reflexivity).
  all: try (read_registry; reflexivity).
  all: try lengths.
  - read_props. reflexivity.
  - destruct Hne; read_props; reflexivity.
Qed.

Lemma extend_registers_bare_witness :
  ∃ s', extend [("plain", Obj 1)] loaded = Ok () s'
    ∧ Fx_Transitions s' !! "plain" = Some (Obj 1)
    ∧ prop_of s' (Obj 1) "easeIn" = prop_of loaded (Obj 1) "easeIn"
    ∧ Fx_Transitions s' !! "plainIn" = Fx_Transitions loaded !! "plainIn".
Proof.
  assert (H1 : 1 < length (heap loaded)) by (rewrite loaded_heap_size; lia).
  destruct (extend_registers_bare loaded 1 "plain" H1 eq_refl)
    as (s' & Hrun & Hname & _ & _ & _ & _ & Hprops & Hreg).
  exists s'. split; [exact Hrun|]. split; [exact Hname|]. split.
  - apply Hprops; [exact H1|]. right. discriminate.
  - apply Hreg. discriminate.
Defined.

(** What is registered has to be a function object.  [undefined] makes
    [extend] throw under any name, and a number makes it throw under a
    family name, where its [ease...] properties cannot be read back.  Under
    any other name a number is registered as it is, the assignment of [set]
    being dropped; calling the entry then throws. *)
Theorem extend_non_function (s : state) (type : string) (x : number)
    (rest : list (string * value)) :
  extend ((type, Undefined) :: rest) s = TypeError
  ∧ (test_upper_initial type = true →
     extend ((type, Num x) :: rest) s = TypeError)
  ∧ (test_upper_initial type = false →
     ∃ s', extend [(type, Num x)] s = Ok () s'
           ∧ Fx_Transitions s' !! type = Some (Num x)
           ∧ ∀ fuel args, invoke_raw (S fuel) type args s' = TypeError).
Proof.
  split; [|split].
  - unfold extend. cbn [each]. destruct (test_upper_initial type); reflexivity.
  - intros Hup. unfold extend. cbn [each]. rewrite Hup. reflexivity.
  - intros Hup. eexists. split.
    { unfold extend. cbn [each]. rewrite Hup. reflexivity. }
    split.
    + cbn [Fx_Transitions]. apply lookup_insert_eq.
    + intros fuel args. unfold invoke_raw, mbind, M_bind, registry_get.
      cbn [Fx_Transitions]. rewrite lookup_insert_eq. reflexivity.
Qed.

Lemma extend_non_function_witness :
  extend [("Foo", Num (Fin 1))] loaded = TypeError
  ∧ ∃ s', extend [("foo", Num (Fin 1))] loaded = Ok () s'
          ∧ invoke_raw 1 "foo" [] s' = TypeError.
Proof.
  destruct (extend_non_function loaded "Foo" (Fin 1) []) as (_ & Hup & _).
  destruct (extend_non_function loaded "foo" (Fin 1) []) as (_ & _ & Hlow).
  split; [exact (Hup eq_refl)|].
  destruct (Hlow eq_refl) as (s' & Hrun & _ & Hcall).
  exists s'. split; [exact Hrun | exact (Hcall 0 [])].
Defined.

(** ** What [linear] does not have *)

(** [linear] is registered without going through [extend]: it has no
    [easeIn], [easeOut] or [easeInOut], no [set] and no aliases.  Calling
    one of the three variants on it, binding parameters to one of them, or
    calling [linear.set], throws, with any arguments and any fuel. *)
Theorem linear_is_bare (args : list value) (fuel : nat) :
  body_of loaded (default Undefined (Fx_Transitions loaded !! "linear"))
  = Some Clinear
  ∧ Forall (λ mode,
        prop_of loaded (default Undefined (Fx_Transitions loaded !! "linear")) mode
        = None
        ∧ invoke (S fuel) "linear" mode args loaded = TypeError
        ∧ invoke_set fuel "linear" mode args loaded = TypeError)
      ["easeIn"; "easeOut"; "easeInOut"]
  ∧ invoke (S fuel) "linear" "set" args loaded = TypeError
  ∧ Forall (λ suffix, Fx_Transitions loaded !! ("linear" +:+ suffix) = None)
      ["In"; "Out"; "InOut"].
Proof.
  assert (Hf : Fx_Transitions loaded !! "linear" = Some (Obj 0)) by by_computation.
  assert (Hob : heap loaded !! 0 = Some (Object Clinear ∅)) by by_computation.
  assert (Hlinear : default Undefined (Fx_Transitions loaded !! "linear") = Obj 0)
    by by_computation.
  assert (Hprop : ∀ mode, prop_of loaded (Obj 0) mode = None).
  { intros mode. unfold prop_of. rewrite Hob. apply lookup_empty. }
  assert (Hcall : ∀ mode, invoke (S fuel) "linear" mode args loaded = TypeError).
  { intros mode. unfold invoke, mbind, M_bind, registry_get, get_prop.
    rewrite Hf. simpl. rewrite Hob. simpl. rewrite lookup_empty. reflexivity. }
  assert (Hset : ∀ mode, invoke_set fuel "linear" mode args loaded = TypeError).
  { intros mode. unfold invoke_set, mbind, M_bind, registry_get, get_prop.
    rewrite Hf. simpl. rewrite Hob. simpl. rewrite lookup_empty. reflexivity. }
  split; [by_computation|]. rewrite Hlinear. split; [|split].
  - each_family; (split; [exact (Hprop _) | split; [exact (Hcall _) | exact (Hset _)]]).
  - exact (Hcall "set").
  - each_family; by_computation.
Qed.

(** ** Progress that is not a number *)

(** No variant of any family traps a progress that is [NaN], or missing:
    with default parameters each of them returns [NaN]. *)
Theorem NaN_progress_propagates :
  Forall (λ N, Forall (λ mode, ∀ n : nat,
      invoke (3 + n) N mode [Num NaN] loaded = Ok (Num NaN) loaded
      ∧ invoke (3 + n) N mode [] loaded = Ok (Num NaN) loaded)
    ["easeIn"; "easeOut"; "easeInOut"]) families.
Proof.
  each_family; each_family; intros n; split;
    run_loaded; js_eval; reflexivity.
Qed.

(** ** The variants of the power family *)

Lemma Pow_alias_exponent (p : value) (i : nat) (e : R) :
  (INR i + 2)%R = e →
  Pow p (#(INR i) + #2)%js = Pow p (lit e).
Proof. intros <-. reflexivity. Qed.

(** Each variant of Quad, Cubic, Quart and Quint is the same variant of
    Pow with the exponent 2, 3, 4 and 5: [Quad.easeOut(p) ==
    Pow.easeOut(p, 2)] and so on, for every [p], whatever else the alias
    is called with. *)
Theorem power_family_variants :
  Forall (λ '(N, e), Forall (λ mode,
      ∀ (n : nat) (p : value) (rest : list value), ∃ r,
        invoke (3 + n) N mode (p :: rest) loaded = Ok r loaded
        ∧ invoke (3 + n) "Pow" mode [p; lit e] loaded = Ok r loaded)
    ["easeIn"; "easeOut"; "easeInOut"])
    [("Quad", 2%R); ("Cubic", 3%R); ("Quart", 4%R); ("Quint", 5%R)].
Proof.
  each_family; each_family; intros n p rest; eexists;
    (split;
     [ run_loaded; args; reflexivity
     | run_loaded; args;
       rewrite ?(Pow_alias_exponent _ 0 2), ?(Pow_alias_exponent _ 1 3),
         ?(Pow_alias_exponent _ 2 4), ?(Pow_alias_exponent _ 3 5)
         by (cbn [INR]; lra);
       reflexivity ]).
Qed.

(** ** The ends of [easeOut] and [easeInOut] *)

Local Open Scope R_scope.

Lemma Rpower_2_neg_8 (y : R) : y = -8 → Rpower 2 y = / 256.
Proof.
  intros ->. rewrite (Rpower_2_neg 8) by (cbn [INR]; lra). f_equal. lra.
Qed.

Lemma Rpower_2_neg_10 (y : R) : y = -10 → Rpower 2 y = / 1024.
Proof.
  intros ->. rewrite (Rpower_2_neg 10) by (cbn [INR]; lra). f_equal. lra.
Qed.

(** The phase of [Elastic] one unit of progress before the end, computed
    from any progress equal to [0]. *)
Lemma cos_Elastic_phase (p : R) :
  p = 0 → cos (2 * PI * (p - 1) * 300 / (300 * 0.3 / 1)) = - (1 / 2).
Proof. intros ->. apply cos_Elastic_0. Qed.

Local Close Scope R_scope.

(** Rewrites the values of [Expo] and [Elastic] at progress [0]. *)
Ltac start_values :=
  repeat match goal with
  | |- context [Rpower 2 ?y] =>
      first [ rewrite (Rpower_2_neg_8 y) by lra
            | rewrite (Rpower_2_neg_10 y) by lra ]
  | |- context [cos (2 * PI * (?p - 1) * 300 / (300 * 0.3 / 1))%R] =>
      rewrite (cos_Elastic_phase p) by lra
  end.

(** With default parameters, at progress [0] every [easeOut] returns [0],
    and at progress [1] it returns [1] for nine families, [255/256] for
    Expo and [2049/2048] for Elastic.  Likewise [easeInOut] starts at [0]
    and ends at [1] for the nine, while for Expo it goes from [1/512] to
    [511/512] and for Elastic from [-1/4096] to [4097/4096]. *)
Theorem ends_of_easeOut_and_easeInOut :
  Forall (λ '(N, e), ∀ n : nat,
      invoke (3 + n) N "easeOut" [(#0)%js] loaded = Ok (#0)%js loaded
      ∧ invoke (3 + n) N "easeOut" [(#1)%js] loaded = Ok (lit (1 - e)) loaded
      ∧ invoke (3 + n) N "easeInOut" [(#0)%js] loaded = Ok (lit (e / 2)) loaded
      ∧ invoke (3 + n) N "easeInOut" [(#1)%js] loaded
        = Ok (lit (1 - e / 2)) loaded)
    [("Pow", 0%R); ("Expo", (1 / 256)%R); ("Circ", 0%R); ("Sine", 0%R);
     ("Back", 0%R); ("Bounce", 0%R); ("Elastic", (- (1 / 2048))%R);
     ("Quad", 0%R); ("Cubic", 0%R); ("Quart", 0%R); ("Quint", 0%R)].
Proof.
  each_family; intros n; repeat split;
    run_loaded; js_eval; known_points; start_values; num_eq.
Qed.

(** ** The symmetry of [easeInOut] *)

Lemma js_div_2_lit (v : value) (a : R) :
  (v / #2)%js = lit a → ToNumber v = Fin (2 * a).
Proof.
  unfold js_div, lit. cbn [ToNumber]. intros [= H]. revert H.
  destruct (ToNumber v) as [|s|x]; cbn [Number.div]; try discriminate.
  rewrite decide_False by lra. intros [= <-]. f_equal. lra.
Qed.

Lemma js_2_minus_div_2_lit (v : value) (a : R) :
  ((#2 - v) / #2)%js = lit a → ToNumber v = Fin (2 - 2 * a).
Proof.
  intros H%js_div_2_lit. revert H. unfold js_sub, lit. cbn [ToNumber].
  destruct (ToNumber v) as [|s|x]; cbn [Number.sub]; try discriminate.
  intros [= H]. f_equal. lra.
Qed.

Lemma lit_le_half (r : R) : (lit r <=? #0.5)%js = bool_decide (r <= 0.5)%R.
Proof. reflexivity. Qed.

Lemma lit_eq (a b : R) : a = b → lit a = lit b.
Proof. now intros ->. Qed.

Lemma Ok_value_inj (v w : value) (s s' : state) : Ok v s = Ok w s' → v = w.
Proof. now intros [= -> _]. Qed.

(** The generic statement, for the [easeInOut] closure over any function
    that returns [1] at progress [1]. *)
Lemma easeInOut_symmetric (s : state) (f t : value) (n : nat) (r a : R) :
  body_of s f = Some (CeaseInOut t) →
  call n t [(#1)%js; Undefined; Undefined; Undefined] s = Ok (#1)%js s →
  call (S n) f [lit r] s = Ok (lit a) s →
  call (S n) f [lit (1 - r)] s = Ok (lit (1 - a)) s.
Proof.
  intros Hb H1.
  rewrite !(call_body s n f _ _ Hb). cbn [apply_code]. args.
  rewrite !lit_le_half.
  unfold easeInOut_first_half, easeInOut_second_half.
  destruct (decide (r = 0.5%R)) as [->|Hne].
  { (* the split point is its own mirror image *)
    rewrite !bool_decide_eq_true_2 by lra. unfold mbind, M_bind.
    replace (#2 * lit (1 - 0.5))%js with (#1)%js by (apply lit_eq; lra).
    replace (#2 * #0.5)%js with (#1)%js by (apply lit_eq; lra).
    rewrite H1. cbn [mret M_ret]. intros Hv%Ok_value_inj.
    apply js_div_2_lit in Hv. injection Hv as Hv.
    apply (f_equal (λ v, Ok v s)). js_unfold. decide_R. num_eq. }
  destruct (decide (r <= 0.5)%R) as [Hle|Hgt].
  - rewrite (bool_decide_eq_true_2 (r <= 0.5)%R) by lra.
    rewrite (bool_decide_eq_false_2 (1 - r <= 0.5)%R) by lra.
    intros (v & s1 & Hv & Hret)%bind_Ok.
    assert (s1 = s) as -> by (now injection Hret).
    apply Ok_value_inj, js_div_2_lit in Hret as Hd.
    unfold mbind, M_bind.
    replace (#2 * (#1 - lit (1 - r)))%js with (#2 * lit r)%js
      by (apply lit_eq; lra).
    rewrite Hv. cbn [mret M_ret]. do 2 f_equal.
    unfold js_div, js_sub, lit. cbn [ToNumber]. rewrite Hd.
    cbn [Number.sub Number.div]. rewrite decide_False by lra.
    do 2 f_equal. lra.
  - rewrite (bool_decide_eq_false_2 (r <= 0.5)%R) by lra.
    rewrite (bool_decide_eq_true_2 (1 - r <= 0.5)%R) by lra.
    intros (v & s1 & Hv & Hret)%bind_Ok.
    assert (s1 = s) as -> by (now injection Hret).
    apply Ok_value_inj, js_2_minus_div_2_lit in Hret as Hd.
    unfold mbind, M_bind.
    replace (#2 * lit (1 - r))%js with (#2 * (#1 - lit r))%js
      by (apply lit_eq; lra).
    rewrite Hv. cbn [mret M_ret]. do 2 f_equal.
    unfold js_div, lit. cbn [ToNumber]. rewrite Hd.
    cbn [Number.div]. rewrite decide_False by lra.
    do 2 f_equal. lra.
Qed.

(** With default parameters every [easeInOut] is symmetric about the point
    [(0.5, 0.5)]: wherever [easeInOut(r)] is a finite number [a],
    [easeInOut(1 - r)] is [1 - a].  This is a fact of exact arithmetic. *)
Theorem easeInOut_point_symmetry :
  Forall (λ N, ∀ (n : nat) (r a : R),
      invoke (3 + n) N "easeInOut" [lit r] loaded = Ok (lit a) loaded →
      invoke (3 + n) N "easeInOut" [lit (1 - r)] loaded = Ok (lit (1 - a)) loaded)
    families.
Proof.
  each_family; intros n r a;
    lazymatch goal with
    | |- invoke _ ?N ?mode _ _ = _ → _ =>
        let f := eval vm_compute in (default Undefined (Fx_Transitions loaded !! N)) in
        let v := eval vm_compute in (default Undefined (prop_of loaded f mode)) in
        assert (Hf : Fx_Transitions loaded !! N = Some f) by by_computation;
        assert (Hv : prop_of loaded f mode = Some v) by by_computation;
        assert (Hb : body_of loaded v = Some (CeaseInOut f)) by by_computation;
        assert (H1 : call (2 + n) f [(#1)%js; Undefined; Undefined; Undefined] loaded
                     = Ok (#1)%js loaded)
          by (run_call; js_eval; known_points; num_eq);
        rewrite !(invoke_call loaded N mode f v) by assumption;
        exact (easeInOut_symmetric loaded v f (2 + n) r a Hb H1)
    end.
Qed.

Lemma easeInOut_point_symmetry_witness :
  invoke 3 "Quad" "easeInOut" [lit (1 - 0.25)] loaded
  = Ok (lit (1 - 0.125)) loaded.
Proof.
  pose proof easeInOut_point_symmetry as H. rewrite Forall_forall in H.
  assert (Hin : "Quad" ∈ families) by in_families.
  apply (H "Quad" Hin 0 0.25%R 0.125%R).
  change 3 with (3 + 0). run_loaded. js_eval.
  replace (0 + 2)%R with (INR 2) by (cbn [INR]; lra).
  rewrite Rpower_pow by lra. num_eq.
Defined.

(** ** Curves that stay between 0 and 1 *)

Local Open Scope R_scope.

Lemma exp_nonpos (y : R) : y <= 0 → 0 < exp y <= 1.
Proof.
  intros Hy. split; [apply exp_pos|].
  destruct Hy as [Hy| ->]; [|rewrite exp_0; lra].
  apply exp_increasing in Hy. rewrite exp_0 in Hy. lra.
Qed.

Lemma ln_unit (x : R) : 0 < x <= 1 → ln x <= 0.
Proof.
  intros [H0 [H1| ->]]; [|rewrite ln_1; lra].
  apply (ln_increasing x 1) in H1; [|exact H0]. rewrite ln_1 in H1. lra.
Qed.

Lemma Rpower_unit (x e : R) : 0 < x <= 1 → 0 <= e → 0 <= Rpower x e <= 1.
Proof.
  intros Hx He. unfold Rpower. pose proof (ln_unit x Hx) as Hl.
  assert (Hy : e * ln x <= 0) by nra.
  pose proof (exp_nonpos _ Hy). lra.
Qed.

Lemma Rpower_2_nonpos (y : R) : y <= 0 → 0 <= Rpower 2 y <= 1.
Proof.
  intros Hy. unfold Rpower.
  assert (Hl : 0 < ln 2).
  { rewrite <- ln_1. apply ln_increasing; lra. }
  assert (Hy' : y * ln 2 <= 0) by nra.
  pose proof (exp_nonpos _ Hy'). lra.
Qed.

Lemma Rpower_square (x : R) : 0 < x → Rpower x 2 = x * x.
Proof.
  intros Hx. replace 2 with (INR 2) by (cbn [INR]; lra).
  rewrite Rpower_pow by exact Hx. cbn [pow]. lra.
Qed.

Lemma sin_unit (x : R) : 0 <= x <= PI → 0 <= sin x <= 1.
Proof.
  intros [H0 H1]. split; [now apply sin_ge_0|].
  pose proof (SIN_bound x). lra.
Qed.

Local Close Scope R_scope.

Lemma returns_lit (s : state) (n : nat) (f : value) (args : list value)
    (w : value) (P : R → Prop) :
  call n f args s = Ok w s →
  (∃ v, P v ∧ w = lit v) →
  ∃ v, P v ∧ call n f args s = Ok (lit v) s.
Proof. intros Hc (v & Hv & ->). now exists v. Qed.

(** Splits on the comparisons that the progress decides. *)
Ltac split_on_progress :=
  decide_R;
  repeat (match goal with
          | |- context [decide ?P] => destruct (decide P)
          | |- context [bool_decide ?P] =>
              destruct (decide P);
              [ rewrite (bool_decide_eq_true_2 P) by assumption
              | rewrite (bool_decide_eq_false_2 P) by assumption ]
          end; decide_R).

Ltac unit_value :=
  eexists; split; [|unfold lit; reflexivity].

(** The raw curves of the families that do not overshoot. *)
Lemma raw_unit_range :
  Forall (λ N, ∃ raw, Fx_Transitions loaded !! N = Some raw
      ∧ ∀ (n : nat) (r : R), (0 <= r <= 1)%R →
          ∃ v, (0 <= v <= 1)%R
               ∧ call (2 + n) raw [lit r; Undefined; Undefined; Undefined] loaded
                 = Ok (lit v) loaded)
    ["Pow"; "Expo"; "Circ"; "Sine"; "Bounce"; "Quad"; "Cubic"; "Quart"; "Quint"].
Proof.
  each_family;
    lazymatch goal with
    | |- ∃ raw, Fx_Transitions loaded !! ?N = _ ∧ _ =>
        let f := eval vm_compute in (default Undefined (Fx_Transitions loaded !! N)) in
        exists f; split; [by_computation|]
    end;
    intros n r Hr; (eapply returns_lit; [run_call; reflexivity|]);
    js_eval; split_on_progress; try (exfalso; lra).
  all: unit_value.
  all: try lra.
  all: try (apply Rpower_unit; cbn [INR]; lra).
  all: try (apply Rpower_2_nonpos; lra).
  - (* Circ *)
    pose proof (sin_unit (acos r) (acos_bound r)). lra.
  - (* Sine *)
    pose proof PI_RGT_0.
    assert (Hs : (0 <= (1 - r) * PI / 2 <= PI)%R) by (split; nra).
    pose proof (sin_unit _ Hs). lra.
  - (* Bounce, the first segment *)
    rewrite Rpower_square by lra. split; nra.
  - split; nra.
  - split; nra.
  - split; nra.
Qed.

Lemma elem_by_decide (N : string) (l : list string) :
  bool_decide (N ∈ l) = true → N ∈ l.
Proof. apply bool_decide_eq_true_1. Qed.

Section UnitRange.
Variables (s : state) (f t : value) (n : nat).
Hypothesis raw_unit : ∀ r : R, (0 <= r <= 1)%R →
  ∃ v, (0 <= v <= 1)%R
       ∧ call n t [lit r; Undefined; Undefined; Undefined] s = Ok (lit v) s.

Lemma unit_easeIn (r : R) :
  body_of s f = Some (CeaseIn t) → (0 <= r <= 1)%R →
  ∃ v, (0 <= v <= 1)%R ∧ call (S n) f [lit r] s = Ok (lit v) s.
Proof.
  intros Hb Hr. rewrite (call_body s n f _ _ Hb). cbn [apply_code]. args.
  now apply raw_unit.
Qed.

Lemma unit_easeOut (r : R) :
  body_of s f = Some (CeaseOut t) → (0 <= r <= 1)%R →
  ∃ v, (0 <= v <= 1)%R ∧ call (S n) f [lit r] s = Ok (lit v) s.
Proof.
  intros Hb Hr. rewrite (call_body s n f _ _ Hb). cbn [apply_code]. args.
  destruct (raw_unit (1 - r)) as (v & Hv & Hc); [lra|].
  exists (1 - v)%R. split; [lra|].
  unfold mbind, M_bind. change (#1 - lit r)%js with (lit (1 - r)).
  rewrite Hc. reflexivity.
Qed.

Lemma unit_easeInOut (r : R) :
  body_of s f = Some (CeaseInOut t) → (0 <= r <= 1)%R →
  ∃ v, (0 <= v <= 1)%R ∧ call (S n) f [lit r] s = Ok (lit v) s.
Proof.
  intros Hb Hr. rewrite (call_body s n f _ _ Hb). cbn [apply_code]. args.
  rewrite lit_le_half.
  unfold easeInOut_first_half, easeInOut_second_half, mbind, M_bind.
  destruct (decide (r <= 0.5)%R) as [Hle|Hgt].
  - rewrite bool_decide_eq_true_2 by exact Hle.
    destruct (raw_unit (2 * r)) as (v & Hv & Hc); [lra|].
    exists (v / 2)%R. split; [lra|].
    change (#2 * lit r)%js with (lit (2 * r)). rewrite Hc. cbn [mret M_ret].
    do 2 f_equal. js_unfold. now decide_R.
  - rewrite bool_decide_eq_false_2 by exact Hgt.
    destruct (raw_unit (2 * (1 - r))) as (v & Hv & Hc); [lra|].
    exists ((2 - v) / 2)%R. split; [lra|].
    change (#2 * (#1 - lit r))%js with (lit (2 * (1 - r))). rewrite Hc.
    cbn [mret M_ret]. do 2 f_equal. js_unfold. now decide_R.
Qed.

End UnitRange.

(** With default parameters, every variant of Pow, Quad, Cubic, Quart,
    Quint, Expo, Circ, Sine and Bounce maps a progress between 0 and 1 to
    a finite value between 0 and 1.  This is a fact of exact arithmetic. *)
Theorem variants_stay_in_unit_range :
  Forall (λ N, Forall (λ mode, ∀ (n : nat) (r : R), (0 <= r <= 1)%R →
      ∃ v, (0 <= v <= 1)%R
           ∧ invoke (3 + n) N mode [lit r] loaded = Ok (lit v) loaded)
    ["easeIn"; "easeOut"; "easeInOut"])
    ["Pow"; "Expo"; "Circ"; "Sine"; "Bounce"; "Quad"; "Cubic"; "Quart"; "Quint"].
Proof.
  pose proof raw_unit_range as Hraw. rewrite Forall_forall in Hraw.
  each_family; each_family; intros n r Hr;
    lazymatch goal with
    | |- ∃ v, _ ∧ invoke _ ?N ?mode _ _ = _ =>
        let f := eval vm_compute in (default Undefined (Fx_Transitions loaded !! N)) in
        let v := eval vm_compute in (default Undefined (prop_of loaded f mode)) in
        assert (Hf : Fx_Transitions loaded !! N = Some f) by by_computation;
        assert (Hv : prop_of loaded f mode = Some v) by by_computation;
        assert (Hin : N ∈ ["Pow"; "Expo"; "Circ"; "Sine"; "Bounce";
                           "Quad"; "Cubic"; "Quart"; "Quint"])
          by (apply elem_by_decide; by_computation);
        destruct (Hraw N Hin) as (raw & Hreg & Hunit);
        rewrite Hf in Hreg; injection Hreg as <-;
        rewrite (invoke_call loaded N mode f v) by assumption;
        first
          [ assert (Hb : body_of loaded v = Some (CeaseIn f)) by by_computation;
            exact (unit_easeIn loaded v f (2 + n) (Hunit n) r Hb Hr)
          | assert (Hb : body_of loaded v = Some (CeaseOut f)) by by_computation;
            exact (unit_easeOut loaded v f (2 + n) (Hunit n) r Hb Hr)
          | assert (Hb : body_of loaded v = Some (CeaseInOut f)) by by_computation;
            exact (unit_easeInOut loaded v f (2 + n) (Hunit n) r Hb Hr) ]
    end.
Qed.

Lemma variants_stay_in_unit_range_witness :
  ∃ v, (0 <= v <= 1)%R
       ∧ invoke 3 "Bounce" "easeOut" [(#0.3)%js] loaded = Ok (lit v) loaded.
Proof.
  pose proof variants_stay_in_unit_range as H. rewrite Forall_forall in H.
  assert (Hin : "Bounce" ∈ ["Pow"; "Expo"; "Circ"; "Sine"; "Bounce";
                            "Quad"; "Cubic"; "Quart"; "Quint"])
    by (apply elem_by_decide; by_computation).
  pose proof (H "Bounce" Hin) as Hm. rewrite Forall_forall in Hm.
  assert (Hmode : "easeOut" ∈ ["easeIn"; "easeOut"; "easeInOut"])
    by (apply elem_by_decide; by_computation).
  apply (Hm "easeOut" Hmode 0 0.3%R). lra.
Defined.

(** ** Back goes below 0 *)



(** ** The third parameter of Elastic *)

(** In [Elastic(p, x, y)] the value of [y] cancels: [x] becomes
    [y * 0.3 / x] and the phase is [2π(p - 1) * y / (y * 0.3 / x)], that is
    [2π(p - 1) * x / 0.3].  For finite [p], [x] and [y] with [x] and [y]
    not zero, the result is [2^(10(p - 1)) * cos(2π(p - 1) * x / 0.3)]
    whatever [y] is, the default 300 included.  This is a fact of exact
    arithmetic. *)
Theorem Elastic_ignores_its_period (n : nat) (p x y : R) :
  x ≠ 0%R → y ≠ 0%R →
  let v := (Rpower 2 (10 * (p - 1)) * cos (2 * PI * (p - 1) * x / 0.3))%R in
  invoke_raw (2 + n) "Elastic" [lit p; lit x; lit y] loaded = Ok (lit v) loaded
  ∧ invoke_raw (2 + n) "Elastic" [lit p; lit x] loaded = Ok (lit v) loaded.
Proof.
  intros Hx Hy v.
  assert (Hdiv : ∀ z : R, z ≠ 0%R → (z * 0.3 / x)%R ≠ 0%R).
  { intros z Hz E. apply (f_equal (λ w, (w * x)%R)) in E.
    field_simplify in E; [|exact Hx]. nra. }
  assert (Hphase : ∀ z : R, z ≠ 0%R →
            (2 * PI * (p - 1) * z / (z * 0.3 / x))%R
            = (2 * PI * (p - 1) * x / 0.3)%R).
  { intros z Hz. field. repeat split; first [assumption | lra]. }
  pose proof (Hdiv y Hy). pose proof (Hdiv 300%R ltac:(lra)).
  split; rewrite raw_Elastic; args; js_unfold;
    rewrite ?(bool_decide_eq_true_2 (x ≠ 0%R)), ?(bool_decide_eq_true_2 (y ≠ 0%R))
      by assumption;
    rewrite ?(decide_False (P := x = 0%R)) by assumption;
    rewrite ?(decide_False (P := (y * 0.3 / x)%R = 0%R)),
      ?(decide_False (P := (300 * 0.3 / x)%R = 0%R)) by assumption;
    decide_R.
  - rewrite (Hphase y Hy).
    destruct (decide (10 * (p - 1) = 0)%R) as [E|]; [|reflexivity].
    unfold lit, v. rewrite E, Rpower_O by lra. reflexivity.
  - rewrite (Hphase 300%R) by lra.
    destruct (decide (10 * (p - 1) = 0)%R) as [E|]; [|reflexivity].
    unfold lit, v. rewrite E, Rpower_O by lra. reflexivity.
Qed.

Lemma Elastic_ignores_its_period_witness :
  invoke_raw 2 "Elastic" [(#0.5)%js; (#2)%js; (#7)%js] loaded
  = invoke_raw 2 "Elastic" [(#0.5)%js; (#2)%js] loaded.
Proof.
  destruct (Elastic_ignores_its_period 0 0.5%R 2%R 7%R ltac:(lra) ltac:(lra))
    as [H7 H300].
  exact (eq_trans H7 (eq_sym H300)).
Defined.

(** ** Where Circ is defined *)


